(** * mediafire_bulk_downloader: a model of [mediafire.py]

    The development follows the source file top to bottom:

    - the name normalisation ([normalize_file_or_folder_name]);
    - the progress counters ([ProgressTracker], [update], [finish]);
    - the bounded semaphore that limits the worker threads;
    - [download_file], the body of one worker thread, as a small-step
      machine whose program points are the statements of the function;
    - [download_folder], the batch driver: one thread per listed file,
      the polling loop and the [KeyboardInterrupt] handler;
    - [get_folders], the recursive directory walk;
    - the read loop of [hash_file], the link pattern of [main] and the
      questions of [interactive_mode].

    Python [str] values are modelled by [string] (names are taken to be
    ASCII), [bytes] by [list byte], Python integers by [Z].

    A batch is a list of threads over shared objects (the semaphore, the
    event, the tracker, the directory); an execution is any interleaving
    of the statements of the threads with the actions of the main
    thread. The properties of a batch are invariants of all
    executions; the concrete runs are schedules that the definitions
    evaluate. *)

From Stdlib Require Import ZArith Ascii String.
From Stdlib.Strings Require Import Byte.
From stdpp Require Import base tactics option list relations gmap strings.

Local Open Scope string_scope.
Local Open Scope Z_scope.

(** ** Name normalisation (lines 31-32, 137-150) *)

Definition NON_ALPHANUM_FILE_OR_FOLDER_NAME_CHARACTERS : string := "-_. ".
Definition NON_ALPHANUM_FILE_OR_FOLDER_NAME_CHARACTER_REPLACEMENT : string := "-".

(** [char in s] for a one-character [char]. *)
Fixpoint char_in (char : ascii) (s : string) : bool :=
  match s with
  | EmptyString => false
  | String c rest => if Ascii.eqb char c then true else char_in char rest
  end.

(** [str.isalnum] on an ASCII character: a decimal digit or a letter.
    (Above code point 127 Python consults the Unicode tables; the
    normalisation lemmas below are therefore proved for an arbitrary
    classifier [alnum], of which this one is the ASCII instance.) *)
Definition isalnum (char : ascii) : bool :=
  let n := nat_of_ascii char in
  ((48 <=? n)%nat && (n <=? 57)%nat)
  || ((65 <=? n)%nat && (n <=? 90)%nat)
  || ((97 <=? n)%nat && (n <=? 122)%nat).

Section Normalize.
Variable alnum : ascii -> bool.

(** The condition of the list comprehension. *)
Definition kept (char : ascii) : bool :=
  alnum char || char_in char NON_ALPHANUM_FILE_OR_FOLDER_NAME_CHARACTERS.

(** ["".join([(char if ... else REPLACEMENT) for char in filename])] *)
Fixpoint normalize_with (filename : string) : string :=
  match filename with
  | EmptyString => EmptyString
  | String char rest =>
      (if kept char then String char EmptyString
       else NON_ALPHANUM_FILE_OR_FOLDER_NAME_CHARACTER_REPLACEMENT)
      +:+ normalize_with rest
  end.

(** A name is in normalised form when the comprehension keeps each of
    its characters. *)
Fixpoint is_normalized_with (s : string) : bool :=
  match s with
  | EmptyString => true
  | String char rest => kept char && is_normalized_with rest
  end.
End Normalize.

Definition normalize_file_or_folder_name (filename : string) : string :=
  normalize_with isalnum filename.

Definition is_normalized (s : string) : bool := is_normalized_with isalnum s.

(** ** Remote metadata (the [file] dictionaries of the listing API) *)

Record RemoteFile := {
  name : string;            (* file["filename"] *)
  file_size : N;            (* int(file.get("size", 0)): a declared byte count *)
  expected_hash : string;   (* file["hash"] *)
  download_link : string;   (* file["links"]["normal_download"] *)
}.

(** The local name of a file: [filename] of [download_file] (line 404). *)
Definition local_name (f : RemoteFile) : string :=
  normalize_file_or_folder_name (name f).

(** ** ProgressTracker (lines 43-124)

    The clock fields ([start_time], [last_update_time]) only decide when
    a progress line is printed and are left out, with the floating-point
    figures of the printed lines. *)

Record ProgressTracker := {
  total_files : Z;
  total_size : Z;
  completed_files : Z;
  downloaded_bytes : Z;
  failed_files : Z;
  skipped_files : Z;
}.

Definition ProgressTracker_init (total_files total_size : Z) : ProgressTracker :=
  {| total_files := total_files; total_size := total_size;
     completed_files := 0; downloaded_bytes := 0;
     failed_files := 0; skipped_files := 0 |}.

Definition update (self : ProgressTracker) (bytes_downloaded : Z)
    (file_completed file_failed file_skipped : bool) : ProgressTracker :=
  {| total_files := total_files self;
     total_size := total_size self;
     completed_files :=
       if file_completed then completed_files self + 1 else completed_files self;
     downloaded_bytes := downloaded_bytes self + bytes_downloaded;
     failed_files := if file_failed then failed_files self + 1 else failed_files self;
     skipped_files :=
       if file_skipped then skipped_files self + 1 else skipped_files self |}.

(** What [finish] prints: the file count of the "Total:" line, and the
    "Failed:" and "Skipped:" lines when their counters are positive. *)
Record Summary := {
  total_line : Z;
  failed_line : option Z;
  skipped_line : option Z;
}.

Definition finish (self : ProgressTracker) : Summary :=
  {| total_line := completed_files self;
     failed_line :=
       if decide (failed_files self > 0) then Some (failed_files self) else None;
     skipped_line :=
       if decide (skipped_files self > 0) then Some (skipped_files self) else None |}.

(** ** threading.BoundedSemaphore

    [acquire] blocks while the counter is zero; [release] raises
    [ValueError] when the counter would exceed its initial value. *)

Record BoundedSemaphore := { value : Z; initial_value : Z }.

(** [None]: the caller blocks. *)
Definition semaphore_acquire (s : BoundedSemaphore) : option BoundedSemaphore :=
  if decide (value s = 0) then None
  else Some {| value := value s - 1; initial_value := initial_value s |}.

(** [None]: ValueError("Semaphore released too many times"). *)
Definition semaphore_release (s : BoundedSemaphore) : option BoundedSemaphore :=
  if decide (value s + 1 > initial_value s) then None
  else Some {| value := value s + 1; initial_value := initial_value s |}.

(** ** The local directory and the remote server *)

(** [Partial] marks a file opened for writing by a transfer that has not
    (yet) streamed its body to the end; files found on disk and files
    whose stream reached its end are [Whole]. The mark is bookkeeping of
    the model, the program does not read it. A file is known by its
    path: the directory is exact as long as no two threads write to the
    same path. *)
Inductive WriteStatus := Whole | Partial.

Record LocalFile := { content : list byte; status : WriteStatus }.

(** The anchor the interstitial page yields:
    [soup.find("a", {"id": "downloadButton"})] and its [href]. *)
Inductive Interstitial :=
| NoButton
| Button (href : option string).

Record Response := {
  content_encoding : option string;   (* getheader("Content-Encoding") *)
  http_status : Z;                    (* response.status *)
  page : Interstitial;                (* the decompressed document, when gzip *)
  body : list (list byte);            (* successive response.read(buffer_size) *)
}.

(** What a thread does that is visible outside the shared objects. *)
Inductive Event :=
| EvAcquire
| EvRelease
| EvReleaseError                      (* release() raised ValueError *)
| EvRequest (url : string)            (* conn.request("GET", ...) *)
| EvPrint (message : string).

Record World := {
  limiter : option BoundedSemaphore;  (* None: download_file got no limiter *)
  event : option bool;                (* None: no Event; Some b: is_set() = b *)
  progress : option ProgressTracker;
  fs : gmap string LocalFile;         (* the current directory *)
  trace : list (nat * Event);         (* most recent first *)
}.

Definition set_limiter (l : option BoundedSemaphore) (w : World) : World :=
  {| limiter := l; event := event w; progress := progress w; fs := fs w;
     trace := trace w |}.
Definition set_event (e : option bool) (w : World) : World :=
  {| limiter := limiter w; event := e; progress := progress w; fs := fs w;
     trace := trace w |}.
Definition set_progress (p : option ProgressTracker) (w : World) : World :=
  {| limiter := limiter w; event := event w; progress := p; fs := fs w;
     trace := trace w |}.
Definition set_fs (m : gmap string LocalFile) (w : World) : World :=
  {| limiter := limiter w; event := event w; progress := progress w; fs := m;
     trace := trace w |}.
Definition log (tid : nat) (e : Event) (w : World) : World :=
  {| limiter := limiter w; event := event w; progress := progress w; fs := fs w;
     trace := (tid, e) :: trace w |}.

(** ** download_file (lines 394-520) *)

(** How a transfer failed: the code's own checks rejected the response
    (no download button or no link target in the interstitial page, an
    HTTP error status), or [except Exception] caught an exception. The
    exception is either raised by an input or output statement, or it
    is the [ValueError] of a [limiter.release()] inside the [try] block:
    after a rejection was counted (lines 449, 460, 479), or on the
    cancellation path (line 493, [None]). *)
Inductive Rejection :=
| ExtractionFailure
| RemoteStatusError.

Inductive Exn :=
| TransferIOError
| ReleaseValueError (after : option Rejection).

Inductive Failure :=
| Rejected (r : Rejection)
| Raised (e : Exn).

(** [Crashed]: an exception before the [try] block was entered. *)
Inductive Outcome :=
| Skipped
| Cancelled
| Completed
| Failed (k : Failure)
| Crashed.

(** The program points of [download_file], with the local variables
    that are live there. *)
Inductive PC :=
| Acquire                                        (* 400-401 *)
| Verify                                         (* 407-408 *)
| SkipUpdate                                     (* 409-410 *)
| SkipRelease                                    (* 411-413 *)
| RemoveStale                                    (* 415 *)
| CheckEvent                                     (* 417 *)
| EarlyRelease                                   (* 418-420 *)
| Request                                        (* 423-431 *)
| GotResponse (response : Response)              (* 433-470 *)
| CheckStatus (response : Response)              (* 472-473 *)
| MarkFailed (r : Rejection)                      (* 444-447, 455-458, 474-477 *)
| FailRelease (r : Rejection)                    (* 448-450, 459-461, 478-480 *)
| OpenFile (response : Response)                 (* 482-484 *)
| ReadChunk (rest : list (list byte))            (* 486 *)
| CheckCancel (chunk : list byte) (rest : list (list byte))   (* 488-497 *)
| CancelRemove                                   (* 491 *)
| CancelRelease                                  (* 492-494 *)
| WriteChunk (chunk : list byte) (rest : list (list byte))    (* 499 *)
| ChunkUpdate (chunk : list byte) (rest : list (list byte))   (* 501-502 *)
| MarkCompleted                                  (* 504-509 *)
| Handler (e : Exn)                              (* 511-513 *)
| HandlerUpdate (e : Exn)                        (* 514-517 *)
| Finally (o : Outcome)                          (* 518-520 *)
| Exited (o : Outcome) (raised : bool).          (* the thread is over *)

Record Thread := { file : RemoteFile; pc : PC }.

(** [if event and event.is_set()] *)
Definition event_is_set (w : World) : bool :=
  match event w with Some true => true | _ => false end.

(** [if progress: progress.update(...) else: print(...)] *)
Definition progress_update (tid : nat) (bytes_downloaded : Z)
    (file_completed file_failed file_skipped : bool)
    (otherwise : option string) (w : World) : World :=
  match progress w with
  | Some p =>
      set_progress
        (Some (update p bytes_downloaded file_completed file_failed file_skipped)) w
  | None =>
      match otherwise with
      | Some message => log tid (EvPrint message) w
      | None => w
      end
  end.

(** [if limiter: limiter.release()]; [false]: the call raised. *)
Definition limiter_release (tid : nat) (w : World) : World * bool :=
  match limiter w with
  | None => (w, true)
  | Some s =>
      match semaphore_release s with
      | Some s' => (log tid EvRelease (set_limiter (Some s') w), true)
      | None => (log tid EvReleaseError w, false)
      end
  end.

(** [remove(filename)]; [None]: FileNotFoundError. *)
Definition remove (filename : string) (w : World) : option World :=
  match fs w !! filename with
  | Some _ => Some (set_fs (delete filename (fs w)) w)
  | None => None
  end.

(** [open(filename, "wb")]: the file is created, or truncated. *)
Definition open_wb (filename : string) (w : World) : World :=
  set_fs (<[filename := {| content := []; status := Partial |}]> (fs w)) w.

(** [f.write(chunk)] *)
Definition write (filename : string) (chunk : list byte) (w : World) : World :=
  match fs w !! filename with
  | Some lf =>
      set_fs (<[filename := {| content := (content lf ++ chunk)%list;
                               status := status lf |}]> (fs w)) w
  | None => w
  end.

(** Leaving the [with] block after the loop's [break]: the file is
    closed with the whole body in it. *)
Definition close_whole (filename : string) (w : World) : World :=
  match fs w !! filename with
  | Some lf =>
      set_fs (<[filename := {| content := content lf; status := Whole |}]> (fs w)) w
  | None => w
  end.

Definition is_error_status (status : Z) : bool :=
  (400 <=? status) && (status <? 600).

Definition is_empty (chunk : list byte) : bool :=
  match chunk with [] => true | _ => false end.

(** The names that are a directory wherever the program runs:
    [path.exists] is true of them and [open] raises
    [IsADirectoryError]. *)
Definition is_directory (filename : string) : bool :=
  bool_decide (filename = "." \/ filename = "..").

(** A name the file system takes for an entry: at most 255 characters
    ([NAME_MAX] of the usual file systems), none of them NUL. For
    another name [path.exists] is false and [open], [makedirs] and
    [chdir] raise. *)
Definition name_fits (name : string) : bool :=
  (String.length name <=? 255)%nat && negb (char_in "000"%char name).

(** [open(filename, "wb")] can create the file: the name is not empty
    ([FileNotFoundError]) and the file system takes it ([OSError]). *)
Definition openable (filename : string) : bool :=
  bool_decide (filename <> "") && name_fits filename.

Section Machine.
(** [hashlib.sha256(...).hexdigest()] of a file's bytes, and the
    response of the server to a GET of a URL: both outside the
    repository, hence parameters. *)
Variable hexdigest : list byte -> string.
Variable net : string -> Response.

(** [hash_file] reads the file in 1024-byte chunks into one digest. *)
Definition hash_file (w : World) (filename : string) : option string :=
  (fun lf => hexdigest (content lf)) <$> fs w !! filename.

Definition http_get (tid : nat) (url : string) (w : World) : World * Response :=
  (log tid (EvRequest url) w, net url).

(** One statement of thread [tid] working on [f]. [None]: the thread
    is blocked in [acquire], or is over. The directory [fs w] holds the
    regular files; a statement raises where the local name alone makes
    it raise: [hash_file] on "." and "..", [open] on the empty name and
    on a name the file system does not take. What else can make a
    statement raise is in [fault]. *)
Definition step (tid : nat) (f : RemoteFile) (w : World) (pc : PC)
    : option (World * PC) :=
  let filename := local_name f in
  match pc with
  | Acquire =>
      match limiter w with
      | None => Some (w, Verify)
      | Some s =>
          match semaphore_acquire s with
          | Some s' => Some (log tid EvAcquire (set_limiter (Some s') w), Verify)
          | None => None
          end
      end
  | Verify =>
      match hash_file w filename with
      | None =>
          (* no regular file of that name: a directory makes the [open]
             of [hash_file] raise, outside the [try] block *)
          if is_directory filename then Some (w, Exited Crashed true)
          else Some (w, CheckEvent)
      | Some h =>
          if decide (h = expected_hash f) then Some (w, SkipUpdate)
          else Some (w, RemoveStale)
      end
  | SkipUpdate =>
      Some (progress_update tid (Z.of_N (file_size f)) false false true None w,
            SkipRelease)
  | SkipRelease =>
      let '(w', ok) := limiter_release tid w in Some (w', Exited Skipped (negb ok))
  | RemoveStale =>
      match remove filename w with
      | Some w' => Some (w', CheckEvent)
      | None => Some (w, Exited Crashed true)
      end
  | CheckEvent =>
      if event_is_set w then Some (w, EarlyRelease) else Some (w, Request)
  | EarlyRelease =>
      let '(w', ok) := limiter_release tid w in Some (w', Exited Cancelled (negb ok))
  | Request =>
      let '(w', response) := http_get tid (download_link f) w in
      Some (w', GotResponse response)
  | GotResponse response =>
      if decide (content_encoding response = Some "gzip") then
        match page response with
        | NoButton => Some (w, MarkFailed ExtractionFailure)
        | Button None | Button (Some EmptyString) =>
            Some (w, MarkFailed ExtractionFailure)
        | Button (Some download_url) =>
            let '(w', response') := http_get tid download_url w in
            Some (w', CheckStatus response')
        end
      else Some (w, CheckStatus response)
  | CheckStatus response =>
      if is_error_status (http_status response)
      then Some (w, MarkFailed RemoteStatusError)
      else Some (w, OpenFile response)
  | MarkFailed r =>
      Some (progress_update tid 0 false true false (Some "Error downloading") w,
            FailRelease r)
  | FailRelease r =>
      let '(w', ok) := limiter_release tid w in
      Some (w', if ok then Finally (Failed (Rejected r))
                else Handler (ReleaseValueError (Some r)))
  | OpenFile response =>
      if openable filename
      then Some (open_wb filename w, ReadChunk (body response))
      else Some (w, Handler TransferIOError)
  | ReadChunk [] => Some (w, CheckCancel [] [])
  | ReadChunk (chunk :: rest) => Some (w, CheckCancel chunk rest)
  | CheckCancel chunk rest =>
      if event_is_set w then Some (w, CancelRemove)
      else if is_empty chunk then Some (close_whole filename w, MarkCompleted)
      else Some (w, WriteChunk chunk rest)
  | CancelRemove =>
      match remove filename w with
      | Some w' => Some (w', CancelRelease)
      | None => Some (w, Handler TransferIOError)
      end
  | CancelRelease =>
      let '(w', ok) := limiter_release tid w in
      Some (w', if ok then Finally Cancelled else Handler (ReleaseValueError None))
  | WriteChunk chunk rest => Some (write filename chunk w, ChunkUpdate chunk rest)
  | ChunkUpdate chunk rest =>
      Some (progress_update tid (Z.of_nat (length chunk)) false false false None w,
            ReadChunk rest)
  | MarkCompleted =>
      Some (progress_update tid 0 true false false (Some "downloaded") w,
            Finally Completed)
  | Handler e =>
      match remove filename w with
      | Some w' => Some (w', HandlerUpdate e)
      | None => Some (w, HandlerUpdate e)
      end
  | HandlerUpdate e =>
      Some (progress_update tid 0 false true false (Some "Error downloading") w,
            Finally (Failed (Raised e)))
  | Finally o =>
      let '(w', ok) := limiter_release tid w in Some (w', Exited o (negb ok))
  | Exited _ _ => None
  end.

(** The statement a thread is about to execute raises an exception
    of its own accord. Inside the [try] block the input and output
    statements do (a connection that drops, a read that times out, a
    disk that is full), and the handler takes over. [hash_file] and
    [remove] (lines 408 and 415) run before the [try] block: when the
    local name is a directory, or a file that cannot be read or
    removed, the exception leaves [download_file] at once, with the
    permit held and no counter touched. *)
Definition fault (pc : PC) : option PC :=
  match pc with
  | Verify | RemoveStale => Some (Exited Crashed true)
  | Request | GotResponse _ | OpenFile _ | ReadChunk _ | WriteChunk _ _ =>
      Some (Handler TransferIOError)
  | _ => None
  end.

(** A call of [download_file] that runs alone, for at most [fuel]
    statements, none of which raises of its own accord. *)
Fixpoint run_thread (fuel : nat) (tid : nat) (f : RemoteFile) (w : World) (pc : PC)
    : World * PC :=
  match fuel with
  | O => (w, pc)
  | S fuel' =>
      match step tid f w pc with
      | Some (w', pc') => run_thread fuel' tid f w' pc'
      | None => (w, pc)
      end
  end.

Definition download_file (fuel : nat) (f : RemoteFile) (w : World) : World * PC :=
  run_thread fuel 0%nat f w Acquire.
End Machine.

(** ** download_folder (lines 309-364) *)

(** One page of the file listing:
    [r_json["response"]["folder_content"]]. *)
Record Page := { files : list RemoteFile; more_chunks : string }.

(** The pagination loop (lines 315-321) over the pages the API serves
    for [chunk = 1, 2, ...]; [None] is the [KeyError] of line 322. *)
Fixpoint collect (pages : list Page) : option (list RemoteFile) :=
  match pages with
  | [] => None
  | p :: rest =>
      if decide (more_chunks p = "yes")
      then data ← collect rest; Some (files p ++ data)%list
      else Some (files p)
  end.

(** The main thread: in the polling loop (352-355), in the joins of the
    interrupt handler (359-360), after [progress.finish()] (364), or
    after the [exit(0)] of the handler (362). *)
Inductive MainPC :=
| Polling
| Joining
| Finished (summary : option Summary)
| Interrupted.

Record System := { world : World; threads : list Thread; main : MainPC }.

(** [sum(int(file.get("size", 0)) for file in data)] *)
Definition declared_total (data : list RemoteFile) : Z :=
  foldr (fun f acc => Z.of_N (file_size f) + acc) 0 data.

(** Lines 330-349: the tracker, the event, the semaphore, and one
    started thread per file. [disk] is the content of the current
    directory when the batch starts. *)
Definition batch_start (data : list RemoteFile) (threads_num : Z)
    (disk : gmap string (list byte)) : System :=
  {| world :=
       {| limiter := Some {| value := threads_num; initial_value := threads_num |};
          event := Some false;
          progress := Some (ProgressTracker_init (Z.of_nat (length data))
                                                 (declared_total data));
          fs := (fun c => {| content := c; status := Whole |}) <$> disk;
          trace := [] |};
     threads := (fun f => {| file := f; pc := Acquire |}) <$> data;
     main := Polling |}.

Inductive Started :=
| ApiError                 (* "Invalid folder or API error" *)
| NoFiles                  (* "No files found in this folder" *)
| SemaphoreValueError      (* BoundedSemaphore(threads_num), threads_num < 0 *)
| Batch (s : System).

Definition download_folder (pages : list Page) (threads_num : Z)
    (disk : gmap string (list byte)) : Started :=
  match collect pages with
  | None => ApiError
  | Some [] => NoFiles
  | Some data =>
      if decide (threads_num < 0) then SemaphoreValueError
      else Batch (batch_start data threads_num disk)
  end.

(** [not t.is_alive()] *)
Definition exited (t : Thread) : bool :=
  match pc t with Exited _ _ => true | _ => false end.

(** What can happen next in a batch: a thread executes its next
    statement, the next statement of a thread raises, Ctrl-C reaches
    the main thread in its polling loop, or the wait of the main thread
    (the polling loop, or the joins) comes to its end. *)
Inductive Action :=
| Run (tid : nat)
| Raise (tid : nat)
| KeyboardInterrupt
| Wait.

Section Batch.
Variable hexdigest : list byte -> string.
Variable net : string -> Response.

Definition set_thread (tid : nat) (f : RemoteFile) (w : World) (pc' : PC)
    (s : System) : System :=
  {| world := w;
     threads := <[tid := {| file := f; pc := pc' |}]> (threads s);
     main := main s |}.

Definition sys_step (a : Action) (s : System) : option System :=
  match a with
  | Run tid =>
      t ← threads s !! tid;
      '(w', pc') ← step hexdigest net tid (file t) (world s) (pc t);
      Some (set_thread tid (file t) w' pc' s)
  | Raise tid =>
      t ← threads s !! tid;
      pc' ← fault (pc t);
      Some (set_thread tid (file t) (world s) pc' s)
  | KeyboardInterrupt =>
      match main s with
      | Polling =>
          Some {| world := set_event (Some true) (world s);
                  threads := threads s; main := Joining |}
      | _ => None
      end
  | Wait =>
      if forallb exited (threads s) then
        match main s with
        | Polling =>
            Some {| world := world s; threads := threads s;
                    main := Finished (finish <$> progress (world s)) |}
        | Joining =>
            Some {| world := world s; threads := threads s; main := Interrupted |}
        | _ => None
        end
      else None
  end.

(** A schedule, executed from left to right. *)
Fixpoint run (schedule : list Action) (s : System) : option System :=
  match schedule with
  | [] => Some s
  | a :: rest => s' ← sys_step a s; run rest s'
  end.

Definition sys_rel (s s' : System) : Prop := exists a, sys_step a s = Some s'.

Definition reachable (s0 s : System) : Prop := rtc sys_rel s0 s.
End Batch.

(** ** get_file (lines 367-391): one download, no event, no limiter

    [progress.finish()] (line 390) is reached when [download_file]
    returns; an exception that leaves [download_file] leaves [get_file]
    too. *)

Definition get_file (hexdigest : list byte -> string) (net : string -> Response)
    (fuel : nat) (file_data : RemoteFile) (disk : gmap string (list byte))
    : World * PC * option Summary :=
  let w :=
    {| limiter := None; event := None;
       progress := Some (ProgressTracker_init 1 (Z.of_N (file_size file_data)));
       fs := (fun c => {| content := c; status := Whole |}) <$> disk;
       trace := [] |} in
  let '(w', pc') := download_file hexdigest net fuel file_data w in
  (w', pc',
   match pc' with
   | Exited _ false => finish <$> progress w'    (* progress.finish() *)
   | _ => None                                   (* the exception leaves get_file *)
   end).

(** ** get_folders (lines 273-306)

    A directory is the list of its path components, outermost first;
    [makedirs] and [chdir] take a path with "/" separators, which is
    resolved component by component (there are no symbolic links). What
    a batch of [download_folder] does to the working directory depends
    on the server and on the schedule of its threads: it is a
    parameter of the walk. *)

(** A remote folder: its key, its name, the pages of its file listing
    and its subfolders, as the API returns them. *)
#[warnings="-register-all"]
Inductive RemoteFolder :=
| Folder (folderkey : string) (folder_name : string) (listing : list Page)
    (subfolders : list RemoteFolder).

Definition remote_name (folder : RemoteFolder) : string :=
  match folder with Folder _ folder_name _ _ => folder_name end.

Record Shell := {
  cwd : list string;                    (* the working directory *)
  dirs : list (list string);            (* the directories that exist *)
  file_paths : list (list string);      (* the regular files that exist *)
  made : list (list string);            (* the makedirs calls, oldest first *)
  batches : list (list string * string) (* download_folder calls: cwd, key *)
}.

(** The components of a path: the pieces between "/" separators. *)
Fixpoint components_from (current : string) (path : string) : list string :=
  match path with
  | EmptyString => [current]
  | String c rest =>
      if Ascii.eqb c "/"%char then current :: components_from EmptyString rest
      else components_from (current +:+ String c EmptyString) rest
  end.

Definition components (path : string) : list string :=
  components_from EmptyString path.

Definition is_absolute (path : string) : bool :=
  match path with String c _ => Ascii.eqb c "/"%char | EmptyString => false end.

(** The directory a path names, from directory [dir]. *)
Definition resolve (dir : list string) (path : string) : list string :=
  foldl (fun d component =>
           if decide (component = "..") then removelast d
           else if decide (component = "" \/ component = ".") then d
           else (d ++ [component])%list)
        (if is_absolute path then [] else dir) (components path).

(** [path.join(a, b)] for a relative [b]. *)
Definition path_join (a b : string) : string :=
  if decide (a = "") then b else a +:+ "/" +:+ b.

(** [path.isdir]; the root of the file system is always there. *)
Definition is_dir (target : list string) (sh : Shell) : bool :=
  bool_decide (target = [] \/ target ∈ dirs sh).

(** [path.exists] *)
Definition path_exists (target : list string) (sh : Shell) : bool :=
  is_dir target sh || bool_decide (target ∈ file_paths sh).

(** The directories on the way to a directory, outermost first, the
    directory itself last. *)
Fixpoint prefixes (target : list string) : list (list string) :=
  match target with
  | [] => []
  | component :: rest => [component] :: ((fun p => component :: p) <$> prefixes rest)
  end.

(** [makedirs]: the directories on the way that are missing are
    created; [None]: one of them is a regular file
    ([NotADirectoryError], [FileExistsError]). *)
Definition makedirs (target : list string) (sh : Shell) : option Shell :=
  if bool_decide (Exists (fun p => p ∈ file_paths sh) (prefixes target)) then None
  else Some {| cwd := cwd sh;
               dirs := (dirs sh
                        ++ filter (fun p => p ∉ dirs sh) (prefixes target))%list;
               file_paths := file_paths sh;
               made := (made sh ++ [target])%list;
               batches := batches sh |}.

(** [if not path.exists(folder_name): makedirs(folder_name)]; for the
    empty path, and for a path with a component the file system does
    not take, [path.exists] is false and [makedirs] raises. *)
Definition ensure_dir (folder_name : string) (sh : Shell) : option Shell :=
  let target := resolve (cwd sh) folder_name in
  if decide (folder_name = "") then None
  else if negb (forallb name_fits (components folder_name)) then None
  else if path_exists target sh then Some sh
  else makedirs target sh.

(** [chdir(path)]; [None]: the path is no directory
    ([FileNotFoundError], [NotADirectoryError]). *)
Definition chdir (path : string) (sh : Shell) : option Shell :=
  let target := resolve (cwd sh) path in
  if is_dir target sh
  then Some {| cwd := target; dirs := dirs sh; file_paths := file_paths sh;
               made := made sh; batches := batches sh |}
  else None.

(** The local names of the files [download_folder] lists (lines
    315-327); none when the listing fails or is empty. *)
Definition listed (listing : list Page) : list string :=
  local_name <$> default [] (collect listing).

Section Walk.
(** The outcome of the batch of a folder. [None]: [download_folder]
    does not return (it raises, it is interrupted, or its threads stay
    blocked). [Some leaves]: it returns, and [leaves filename] says
    whether a regular file is in the working directory under the local
    name [filename] afterwards (it was there with the expected hash, or
    its download completed). *)
Variable outcome : string -> option (string -> bool).

(** [download_folder(folder_key, threads_num)], in the working
    directory: of the listed files those are there afterwards that the
    batch leaves; the other files stay. *)
Definition record_batch (folder_key : string) (listing : list Page) (sh : Shell)
    : option Shell :=
  leaves ← outcome folder_key;
  let place := resolve (cwd sh) in
  Some {| cwd := cwd sh; dirs := dirs sh;
          file_paths :=
            (filter (fun p => p ∉ place <$> listed listing) (file_paths sh)
             ++ filter (fun p => is_dir p sh = false)
                  (place <$> filter (fun filename => leaves filename = true)
                               (listed listing)))%list;
          made := made sh;
          batches := (batches sh ++ [(cwd sh, folder_key)])%list |}.

Fixpoint get_folders (folder : RemoteFolder) (folder_name : string) (first : bool)
    (sh : Shell) : option Shell :=
  match folder with
  | Folder folder_key name listing subfolders =>
      let folder_name :=
        if first
        then path_join folder_name (normalize_file_or_folder_name name)
        else folder_name in
      sh ← ensure_dir folder_name sh;
      sh ← chdir folder_name sh;
      sh ← record_batch folder_key listing sh;
      foldl (fun walked sub =>
               sh ← walked;
               sh ← get_folders sub (remote_name sub) false sh;
               chdir ".." sh)
            (Some sh) subfolders
  end.
End Walk.

(** ** Bookkeeping for the properties

    Functions of the program points that say how much of the shared
    counters a thread accounts for. *)

Definition sum_threads (g : Thread -> Z) (l : list Thread) : Z :=
  foldr (fun t acc => g t + acc) 0 l.

Definition outcome_completed (o : Outcome) : Z :=
  match o with Completed => 1 | _ => 0 end.

Definition outcome_skipped (o : Outcome) : Z :=
  match o with Skipped => 1 | _ => 0 end.

(** A rejection whose [release()] raised is counted by line 445, 456 or
    475 and again by line 515. *)
Definition exn_failed (e : Exn) : Z :=
  match e with ReleaseValueError (Some _) => 1 | _ => 0 end.

Definition outcome_failed (o : Outcome) : Z :=
  match o with
  | Failed (Rejected _) => 1
  | Failed (Raised e) => exn_failed e + 1
  | _ => 0
  end.

(** The increments of [completed_files], [skipped_files] and
    [failed_files] a thread at [pc] has made. *)
Definition counted_completed (pc : PC) : Z :=
  match pc with
  | Finally o | Exited o _ => outcome_completed o
  | _ => 0
  end.

Definition counted_skipped (pc : PC) : Z :=
  match pc with
  | SkipRelease => 1
  | Finally o | Exited o _ => outcome_skipped o
  | _ => 0
  end.

Definition counted_failed (pc : PC) : Z :=
  match pc with
  | FailRelease _ => 1
  | Handler e | HandlerUpdate e => exn_failed e
  | Finally o | Exited o _ => outcome_failed o
  | _ => 0
  end.




(** The task died of an exception before its [try] block (lines 408
    and 415). *)
Definition is_crashed (t : Thread) : Z :=
  match pc t with Exited Crashed _ => 1 | _ => 0 end.

(** The number of tasks that died before their [try] block. *)
Definition crashed_tasks (s : System) : Z := sum_threads is_crashed (threads s).

(** [sum(len(chunk) for chunk in ...)] *)
Definition chunks_length (chunks : list (list byte)) : Z :=
  foldr (fun chunk acc => Z.of_nat (length chunk) + acc) 0 chunks.

Definition downloaded (w : World) : Z :=
  match progress w with Some p => downloaded_bytes p | None => 0 end.


(** The events of one thread, most recent first. *)
Definition events_of (tid : nat) (tr : list (nat * Event)) : list Event :=
  snd <$> filter (fun e => fst e = tid) tr.

(** The URLs requested so far, most recent first. *)
Definition requests (tr : list (nat * Event)) : list string :=
  omap (fun e => match snd e with EvRequest url => Some url | _ => None end) tr.

Section Accounting.
Variable net : string -> Response.

(** The length of the body that line 486 will read after the response
    [response] of the first request: the body of [response], or the
    body behind the link of the interstitial page. *)
Definition streamed_length (response : Response) : Z :=
  if decide (content_encoding response = Some "gzip") then
    match page response with
    | NoButton => 0
    | Button None | Button (Some EmptyString) => 0
    | Button (Some download_url) => chunks_length (body (net download_url))
    end
  else chunks_length (body response).

(** No more is served for [f] than its declared size. *)
Definition body_fits (f : RemoteFile) : Prop :=
  streamed_length (net (download_link f)) <= Z.of_N (file_size f).

(** The most a thread at [pc] may still add to [downloaded_bytes]. *)
Definition pending (t : Thread) : Z :=
  match pc t with
  | Acquire | Verify | SkipUpdate | RemoveStale | CheckEvent =>
      Z.of_N (file_size (file t))
  | Request => streamed_length (net (download_link (file t)))
  | GotResponse response => streamed_length response
  | CheckStatus response | OpenFile response => chunks_length (body response)
  | ReadChunk rest => chunks_length rest
  | CheckCancel chunk rest | WriteChunk chunk rest | ChunkUpdate chunk rest =>
      Z.of_nat (length chunk) + chunks_length rest
  | _ => 0
  end.
End Accounting.

Section Schedules.
Variable hexdigest : list byte -> string.
Variable net : string -> Response.

(** A schedule in which an action that is not enabled is skipped. *)
Fixpoint exec (schedule : list Action) (s : System) : System :=
  match schedule with
  | [] => s
  | a :: rest => exec rest (default s (sys_step hexdigest net a s))
  end.
End Schedules.

(** No statement raises of its own accord: the actions of a run in
    which the files can be read and removed, the server answers and
    the disk takes what is written. *)
Definition no_fault (a : Action) : bool :=
  match a with Raise _ => false | _ => true end.

(** The actions of the program itself: a thread executes its next
    statement, or the wait of the main thread comes to its end. *)
Definition scheduled (a : Action) : bool :=
  match a with Run _ | Wait => true | _ => false end.

(** The program points of the skip path, and the bytes a thread on it
    has added to [downloaded_bytes]. *)
Definition skip_path (pc : PC) : bool :=
  match pc with
  | Acquire | Verify | SkipUpdate | SkipRelease | Exited Skipped _ => true
  | _ => false
  end.

Definition credited (t : Thread) : Z :=
  match pc t with
  | SkipRelease | Exited Skipped _ => Z.of_N (file_size (file t))
  | _ => 0
  end.

(** The existence check, the hash comparison and the removal of a
    stale file. *)
Definition verifying (pc : PC) : bool :=
  match pc with Verify | RemoveStale => true | _ => false end.

(** [progress.finish()] or [exit(0)] was reached. *)
Definition wait_returned (m : MainPC) : bool :=
  match m with Finished _ | Interrupted => true | _ => false end.

(** ** Invariants of a batch *)

(** The objects [download_folder] hands to its threads stay in place. *)
Definition batch_shape (data : list RemoteFile) (threads_num : Z) (s : System)
    : Prop :=
  file <$> threads s = data
  /\ (exists sem, limiter (world s) = Some sem /\ initial_value sem = threads_num)
  /\ (exists b, event (world s) = Some b).

(** Each of the three file counters is the sum of what the threads have
    counted. *)
Definition ledger (data : list RemoteFile) (s : System) : Prop :=
  exists p, progress (world s) = Some p
    /\ total_files p = Z.of_nat (length data)
    /\ total_size p = declared_total data
    /\ completed_files p = sum_threads (fun t => counted_completed (pc t)) (threads s)
    /\ failed_files p = sum_threads (fun t => counted_failed (pc t)) (threads s)
    /\ skipped_files p = sum_threads (fun t => counted_skipped (pc t)) (threads s).

(** What was downloaded and what may still come fit in the declared
    total. *)
Definition bytes_bounded (net : string -> Response) (s : System) : Prop :=
  exists p, progress (world s) = Some p
    /\ downloaded_bytes p + sum_threads (pending net) (threads s) <= total_size p.


(** A thread that has not started has done nothing; a thread in the
    verifying step has acquired its permit and nothing else. *)
Definition permit_before_verify (s : System) : Prop :=
  forall tid t, threads s !! tid = Some t ->
    (pc t = Acquire -> events_of tid (trace (world s)) = [])
    /\ (verifying (pc t) = true -> events_of tid (trace (world s)) = [EvAcquire]).

(** On the skip path nothing is requested, nothing is written, and
    [downloaded_bytes] is the sum of the sizes credited by line 410. *)
Definition all_skipping (disk : gmap string (list byte)) (s : System) : Prop :=
  fs (world s) = (fun c => {| content := c; status := Whole |}) <$> disk
  /\ Forall (fun t => skip_path (pc t) = true) (threads s)
  /\ requests (trace (world s)) = []
  /\ exists p, progress (world s) = Some p
       /\ downloaded_bytes p = sum_threads credited (threads s).



(** ** A small server and a few files, for the concrete runs *)

(** A stand-in for the digest: the bytes themselves, as a string. *)
Definition demo_digest (bs : list byte) : string := string_of_list_byte bs.

Definition demo_chunk1 : list byte := list_byte_of_string "abcd".
Definition demo_chunk2 : list byte := list_byte_of_string "efghij".

Definition demo_ok : Response :=
  {| content_encoding := None; http_status := 200; page := NoButton;
     body := [demo_chunk1; demo_chunk2] |}.

Definition demo_not_found : Response :=
  {| content_encoding := None; http_status := 404; page := NoButton; body := [] |}.

Definition demo_no_button : Response :=
  {| content_encoding := Some "gzip"; http_status := 200; page := NoButton;
     body := [] |}.

Definition demo_net (url : string) : Response :=
  if decide (url = "https://dl/gone") then demo_not_found
  else if decide (url = "https://dl/blocked") then demo_no_button
  else demo_ok.

Definition demo_file (name link : string) : RemoteFile :=
  {| name := name; file_size := 10; expected_hash := "abcdefghij";
     download_link := link |}.

Definition file_a : RemoteFile := demo_file "a?.bin" "https://dl/a".
Definition file_b : RemoteFile := demo_file "b.bin" "https://dl/b".
Definition file_c : RemoteFile := demo_file "c.bin" "https://dl/c".
Definition file_d : RemoteFile := demo_file "d.bin" "https://dl/d".
Definition file_gone : RemoteFile := demo_file "gone.bin" "https://dl/gone".
Definition file_blocked : RemoteFile := demo_file "blocked.bin" "https://dl/blocked".

(** A listed file whose name is that of the directory itself. *)
Definition file_dot : RemoteFile := demo_file "." "https://dl/dot".

(** A directory that already holds [file_a], whole. *)
Definition disk_with_a : gmap string (list byte) :=
  {[ "a-.bin" := (demo_chunk1 ++ demo_chunk2)%list ]}.

Definition runs (tid : nat) (n : nat) : list Action := repeat (Run tid) n.

(** Thread 0 writes its first chunk, Ctrl-C arrives, the thread sees
    the event after its next read and cleans up, the joins return. *)
Definition cancel_midstream : list Action :=
  (runs 0 11 ++ [KeyboardInterrupt] ++ runs 0 5 ++ [Wait])%list.

(** Thread 0 downloads its file to the end; thread 1 writes one chunk
    and is then cancelled. *)
Definition complete_then_cancel : list Action :=
  (runs 0 1 ++ runs 1 1 ++ runs 0 18 ++ runs 1 10 ++ [KeyboardInterrupt]
   ++ runs 1 5 ++ [Wait])%list.

(** Thread 0 writes its first chunk, then its next read raises. *)
Definition fail_midstream : list Action :=
  (runs 0 11 ++ [Raise 0%nat] ++ runs 0 3 ++ [Wait])%list.

(** With two permits: threads 0 and 1 acquire; thread 0 is refused by
    the server and returns; threads 2 and 3 then both acquire, and
    threads 1, 2 and 3 go on to open their files. *)
Definition three_with_two_permits : list Action :=
  (runs 0 1 ++ runs 1 1 ++ runs 0 8 ++ runs 2 1 ++ runs 3 1
   ++ runs 1 6 ++ runs 2 6 ++ runs 3 6)%list.

(** The program points of the states [Resolving] and [Downloading]. *)
Definition transferring (t : Thread) : bool :=
  match pc t with
  | Request | GotResponse _ | CheckStatus _ | OpenFile _ | ReadChunk _
  | CheckCancel _ _ | WriteChunk _ _ | ChunkUpdate _ _ => true
  | _ => false
  end.

(** A folder "Holiday: 2024" with the subfolders "day: one" and "misc". *)
Definition demo_tree : RemoteFolder :=
  Folder "k0" "Holiday: 2024" []
    [Folder "k1" "day: one" [] []; Folder "k2" "misc" [] []].

Definition demo_shell : Shell :=
  {| cwd := ["home"]; dirs := [["home"]]; file_paths := []; made := [];
     batches := [] |}.

(** Every batch returns and leaves all the files it lists. *)
Definition demo_outcome (folder_key : string) : option (string -> bool) :=
  Some (fun _ => true).

(** ** Further bookkeeping *)

(** The program points before the request of line 425, and the ends
    that are reached without passing it. *)
Definition not_started (pc : PC) : bool :=
  match pc with
  | Acquire | Verify | SkipUpdate | SkipRelease | RemoveStale | CheckEvent
  | EarlyRelease | Exited Skipped _ | Exited Cancelled _ | Exited Crashed _ => true
  | _ => false
  end.

(** The URLs one thread has requested, most recent first. *)
Definition requests_of (tid : nat) (tr : list (nat * Event)) : list string :=
  omap (fun e => match e with EvRequest url => Some url | _ => None end)
       (events_of tid tr).

(** ** hash_file (lines 127-134), the loop

    The hasher is the sequence of bytes passed to [h.update] so far;
    [h.hexdigest()] is the digest of that sequence. [None]: the loop
    has not ended within [fuel] reads. *)
Fixpoint hash_file_loop (fuel : nat) (rest : list byte) (h : list byte)
    : option (list byte) :=
  match fuel with
  | O => None
  | S fuel' =>
      let chunk := take 1024 rest in          (* chunk = file.read(1024) *)
      let h := (h ++ chunk)%list in           (* h.update(chunk) *)
      if is_empty chunk then Some h           (* while chunk != b"" *)
      else hash_file_loop fuel' (drop 1024 rest) h
  end.

(** The number of [file.read] calls for a file of [n] bytes. *)
Definition hash_file_reads (n : nat) : nat := S ((n + 1023) / 1024).

(** ** Sequential runs of download_file *)

Section Sequential.
Variable hexdigest : list byte -> string.
Variable net : string -> Response.

(** Exactly [n] statements of a thread; [None]: it cannot make that
    many. *)
Fixpoint run_exact (n : nat) (tid : nat) (f : RemoteFile) (w : World) (pc : PC)
    : option (World * PC) :=
  match n with
  | O => Some (w, pc)
  | S n' =>
      match step hexdigest net tid f w pc with
      | Some (w', pc') => run_exact n' tid f w' pc'
      | None => None
      end
  end.

(** The response whose body [download_file] streams to the file: that
    of the download link, or the one behind the link of the
    interstitial page (lines 433-470). *)
Definition resolved (f : RemoteFile) : option Response :=
  let response := net (download_link f) in
  if decide (content_encoding response = Some "gzip") then
    match page response with
    | NoButton => None
    | Button None | Button (Some EmptyString) => None
    | Button (Some download_url) => Some (net download_url)
    end
  else Some response.

(** The number of chunks of that response. *)
Definition resolved_chunks (response : Response) : nat :=
  if decide (content_encoding response = Some "gzip") then
    match page response with
    | NoButton => 0
    | Button None | Button (Some EmptyString) => 0
    | Button (Some download_url) => length (body (net download_url))
    end
  else length (body response).

(** A bound on the statements a thread at [pc] still executes. *)
Definition steps_left (f : RemoteFile) (pc : PC) : nat :=
  match pc with
  | Exited _ _ => 0
  | Finally _ | SkipRelease | EarlyRelease => 1
  | HandlerUpdate _ | SkipUpdate | MarkCompleted => 2
  | Handler _ => 3
  | FailRelease _ | CancelRelease => 4
  | MarkFailed _ | CancelRemove => 5
  | CheckCancel chunk rest =>
      (if is_empty chunk then 0 else 4 * length rest + 4) + 6
  | ReadChunk rest => 4 * length rest + 7
  | ChunkUpdate _ rest => 4 * length rest + 8
  | WriteChunk _ rest => 4 * length rest + 9
  | OpenFile response => 4 * length (body response) + 8
  | CheckStatus response => 4 * length (body response) + 9
  | GotResponse response => 4 * resolved_chunks response + 10
  | Request => 4 * resolved_chunks (net (download_link f)) + 11
  | CheckEvent => 4 * resolved_chunks (net (download_link f)) + 12
  | RemoveStale => 4 * resolved_chunks (net (download_link f)) + 13
  | Verify => 4 * resolved_chunks (net (download_link f)) + 14
  | Acquire => 4 * resolved_chunks (net (download_link f)) + 15
  end.

(** The actions the main thread can still take. *)
Definition main_left (m : MainPC) : nat :=
  match m with Polling => 2 | Joining => 1 | _ => 0 end.

(** A bound on the actions of a batch from state [s]. *)
Definition actions_left (s : System) : nat :=
  foldr (fun t acc => steps_left (file t) (pc t) + acc)%nat 0%nat (threads s)
  + main_left (main s).
End Sequential.

(** ** What a thread has written

    [written net f disk rest]: the thread has opened the file of [f]
    for the response it resolved, the status of that response was
    accepted, and what the file holds followed by the chunks still to
    be read is the body of the response. *)
Definition written (net : string -> Response) (f : RemoteFile)
    (disk : gmap string LocalFile) (rest : list (list byte)) : Prop :=
  exists response lf,
    resolved net f = Some response
    /\ is_error_status (http_status response) = false
    /\ disk !! local_name f = Some lf
    /\ (content lf ++ concat rest)%list = concat (body response)
    /\ Forall (fun chunk => chunk <> []) rest.

(** The file of [f] holds the whole body of the resolved response and
    is closed. *)
Definition stored (net : string -> Response) (f : RemoteFile)
    (disk : gmap string LocalFile) : Prop :=
  exists response,
    resolved net f = Some response
    /\ is_error_status (http_status response) = false
    /\ disk !! local_name f
       = Some {| content := concat (body response); status := Whole |}.

(** What is known of the response and of the file at each program
    point of the transfer. *)
Definition transfer_ok (net : string -> Response) (disk : gmap string LocalFile)
    (t : Thread) : Prop :=
  match pc t with
  | GotResponse response => response = net (download_link (file t))
  | CheckStatus response => resolved net (file t) = Some response
  | OpenFile response =>
      resolved net (file t) = Some response
      /\ is_error_status (http_status response) = false
  | ReadChunk rest | ChunkUpdate _ rest => written net (file t) disk rest
  | CheckCancel chunk rest =>
      if is_empty chunk then written net (file t) disk [] /\ rest = []
      else written net (file t) disk (chunk :: rest)
  | WriteChunk chunk rest => written net (file t) disk (chunk :: rest)
  | MarkCompleted | Finally Completed | Exited Completed _ =>
      stored net (file t) disk
  | _ => True
  end.

(** ** The walk of get_folders *)

(** A name that, as a path, is one component below the working
    directory, and that the file system takes. *)
Definition simple_name (name : string) : bool :=
  negb (char_in "/"%char name)
  && bool_decide (name <> "") && bool_decide (name <> ".")
  && bool_decide (name <> "..") && name_fits name.

(** Every folder below [folder] has such a name. *)
Fixpoint simple_subfolders (folder : RemoteFolder) : bool :=
  match folder with
  | Folder _ _ _ subfolders =>
      forallb (fun sub => simple_name (remote_name sub) && simple_subfolders sub)
              subfolders
  end.

(** The folders of a remote tree in the order of a depth-first walk,
    each with the directory that mirrors its place in the tree when the
    root of the tree is mirrored by [dir]. *)
Fixpoint tree_batches (dir : list string) (folder : RemoteFolder)
    : list (list string * string) :=
  match folder with
  | Folder folder_key _ _ subfolders =>
      (dir, folder_key)
      :: flat_map (fun sub => tree_batches (dir ++ [remote_name sub])%list sub)
                  subfolders
  end.

(** The paths at which the batches of a remote tree may leave a
    file, when the root of the tree is mirrored by [dir]. *)
Fixpoint tree_files (dir : list string) (folder : RemoteFolder)
    : list (list string) :=
  match folder with
  | Folder _ _ listing subfolders =>
      ((resolve dir <$> listed listing)
       ++ flat_map (fun sub => tree_files (dir ++ [remote_name sub])%list sub)
                   subfolders)%list
  end.

(** The walk of [folder], started in [sh] under the path [folder_name],
    when no regular file, among those of [possible], is in the way:
    where the walk ends, what it has downloaded, and which directories
    and files exist. *)
Definition walk_spec (outcome : string -> option (string -> bool))
    (folder : RemoteFolder) : Prop :=
  forall folder_name sh (possible : list (list string)),
    folder_name <> "" ->
    forallb name_fits (components folder_name) = true ->
    simple_subfolders folder = true ->
    let root := resolve (cwd sh) folder_name in
    Forall (fun b => is_Some (outcome b.2)) (tree_batches root folder) ->
    (forall p, p ∈ file_paths sh -> p ∈ possible) ->
    (forall p, p ∈ tree_files root folder -> p ∈ possible) ->
    (forall d, d ∈ prefixes root -> d ∉ possible) ->
    (forall b, b ∈ tree_batches root folder -> b.1 ∉ possible) ->
    exists sh',
      get_folders outcome folder folder_name false sh = Some sh'
      /\ cwd sh' = root
      /\ batches sh' = (batches sh ++ tree_batches root folder)%list
      /\ (forall d, is_dir d sh = true -> is_dir d sh' = true)
      /\ Forall (fun b => is_dir b.1 sh' = true) (tree_batches root folder)
      /\ (forall p, p ∈ file_paths sh' -> p ∈ possible).

(** ** Permits

    1 at the program points where the thread has acquired its permit
    and has not yet called [release]. *)
Definition holds_permit (pc : PC) : Z :=
  match pc with
  | Acquire | Exited _ _ => 0
  | Handler e | HandlerUpdate e | Finally (Failed (Raised e)) =>
      match e with TransferIOError => 1 | ReleaseValueError _ => 0 end
  | Finally Completed => 1
  | Finally _ => 0
  | _ => 1
  end.

(** A thread that is waiting for a permit, or is over. *)
Definition idle (t : Thread) : bool :=
  match pc t with Acquire | Exited _ _ => true | _ => false end.

(** The permits taken from the semaphore are held by threads that will
    still release them, or were held by threads that died before their
    [try] block. *)
Definition permits_held (s : System) : Prop :=
  exists sem, limiter (world s) = Some sem
    /\ 0 <= value sem <= initial_value sem
    /\ initial_value sem - value sem
       <= sum_threads (fun t => holds_permit (pc t)) (threads s)
          + crashed_tasks s.

(** ** main (lines 200-255): the link

    [findall(r"mediafire\.com/(folder|file|file_premium)\/([a-zA-Z0-9]+)",
    mediafire_url)], of which [main] uses the first element. *)

(** [[a-zA-Z0-9]] *)
Definition key_char (c : ascii) : bool :=
  let n := nat_of_ascii c in
  ((97 <=? n) && (n <=? 122) || (65 <=? n) && (n <=? 90)
   || (48 <=? n) && (n <=? 57))%nat.

(** A literal at the start of [s]: what follows it. *)
Fixpoint match_literal (literal s : string) : option string :=
  match literal with
  | EmptyString => Some s
  | String a literal' =>
      match s with
      | String b s' => if Ascii.eqb a b then match_literal literal' s' else None
      | EmptyString => None
      end
  end.

(** [[a-zA-Z0-9]*] at the start of [s], greedy: the longest run. *)
Fixpoint key_run (s : string) : string :=
  match s with
  | String c s' => if key_char c then String c (key_run s') else EmptyString
  | EmptyString => EmptyString
  end.

(** [\/([a-zA-Z0-9]+)] at the start of [s]: the group. *)
Definition match_key (s : string) : option string :=
  rest ← match_literal "/" s;
  if decide (key_run rest = "") then None else Some (key_run rest).

(** [(folder|file|file_premium)\/([a-zA-Z0-9]+)]: the alternatives are
    tried from left to right, the next one when the rest of the pattern
    does not match after the current one. *)
Fixpoint match_alternatives (alternatives : list string) (s : string)
    : option (string * string) :=
  match alternatives with
  | [] => None
  | alternative :: others =>
      match match_literal alternative s ≫= match_key with
      | Some key => Some (alternative, key)
      | None => match_alternatives others s
      end
  end.

(** The pattern at the start of [s]. *)
Definition match_here (s : string) : option (string * string) :=
  rest ← match_literal "mediafire.com/" s;
  match_alternatives ["folder"; "file"; "file_premium"] rest.

(** [findall(...)[0]]: the leftmost match; [None]: the list is empty. *)
Fixpoint first_match (s : string) : option (string * string) :=
  match match_here s with
  | Some groups => Some groups
  | None =>
      match s with
      | String _ s' => first_match s'
      | EmptyString => None
      end
  end.

(** What [main] does with the link (lines 235-249). *)
Inductive Dispatch :=
| InvalidLink                      (* "Invalid MediaFire link", exit(1) *)
| GetFile (key : string)           (* get_file(key, output_path) *)
| GetFolders (key : string)        (* get_folders(key, ..., first=True) *)
| InvalidLinkType.                 (* "Invalid link type", exit(1) *)

Definition dispatch (mediafire_url : string) : Dispatch :=
  match first_match mediafire_url with
  | None => InvalidLink
  | Some (t, key) =>
      if decide (t = "file" \/ t = "file_premium") then GetFile key
      else if decide (t = "folder") then GetFolders key
      else InvalidLinkType
  end.

(** Every character of [s] is one of [[a-zA-Z0-9]]. *)
Fixpoint all_key_chars (s : string) : bool :=
  match s with
  | String c s' => key_char c && all_key_chars s'
  | EmptyString => true
  end.

(** [s] does not go on with a character of the key. *)
Definition ends_key (s : string) : bool :=
  match s with String c _ => negb (key_char c) | EmptyString => true end.

(** ** interactive_mode (lines 169-197)

    [inputs] are the lines the user types, one per call of [input];
    [None]: the lines run out ([EOFError]). [strip] is [str.strip] and
    [int] is the conversion of line 187, [None] for its
    [ValueError]. *)
Section Interactive.
Variable strip : string -> string.
Variable int : string -> option Z.

(** The loop of lines 172-176. *)
Fixpoint ask_url (inputs : list string) : option (string * list string) :=
  match inputs with
  | [] => None
  | line :: rest =>
      let url := strip line in
      if decide (url = "") then ask_url rest else Some (url, rest)
  end.

(** The loop of lines 182-194. *)
Fixpoint ask_threads (inputs : list string) : option (Z * list string) :=
  match inputs with
  | [] => None
  | line :: rest =>
      let threads := strip line in
      if decide (threads = "") then Some (20, rest)
      else
        match int threads with
        | Some threads =>
            if decide (threads < 1 \/ threads > 50) then ask_threads rest
            else Some (threads, rest)
        | None => ask_threads rest
        end
  end.

Definition interactive_mode (inputs : list string)
    : option (string * string * Z * list string) :=
  '(url, inputs) ← ask_url inputs;
  match inputs with
  | [] => None
  | line :: inputs =>
      let output := strip line in
      let output := if decide (output = "") then "." else output in
      '(threads, inputs) ← ask_threads inputs;
      Some (url, output, threads, inputs)
  end.
End Interactive.

(** * Properties *)

(** ** Name normalisation *)

Lemma kept_replacement alnum : kept alnum "-"%char = true.
Proof. unfold kept. apply orb_true_iff. right. reflexivity. Qed.

Lemma normalize_with_fixed alnum s :
  is_normalized_with alnum s = true -> normalize_with alnum s = s.
Proof.
  induction s as [|c s IH]; simpl; [done|].
  intros [Hc Hs]%andb_true_iff. rewrite Hc. simpl. by rewrite IH.
Qed.

Lemma normalize_with_normalized alnum s :
  is_normalized_with alnum (normalize_with alnum s) = true.
Proof.
  induction s as [|c s IH]; simpl; [done|].
  destruct (kept alnum c) eqn:Hc; simpl.
  - by rewrite Hc.
  - by rewrite kept_replacement.
Qed.

Lemma normalize_with_idempotent alnum s :
  normalize_with alnum (normalize_with alnum s) = normalize_with alnum s.
Proof. apply normalize_with_fixed, normalize_with_normalized. Qed.

(** C9. Normalisation is a function of its argument (equal inputs give
    equal outputs), it is idempotent, its results are in normalised
    form, and a name already in normalised form is returned unchanged. *)
Theorem normalize_deterministic_idempotent :
  (forall s1 s2 : string,
      s1 = s2 -> normalize_file_or_folder_name s1 = normalize_file_or_folder_name s2)
  /\ (forall s : string,
      normalize_file_or_folder_name (normalize_file_or_folder_name s)
      = normalize_file_or_folder_name s)
  /\ (forall s : string, is_normalized (normalize_file_or_folder_name s) = true)
  /\ (forall s : string,
      is_normalized s = true -> normalize_file_or_folder_name s = s).
Proof.
  repeat split.
  - by intros s1 s2 ->.
  - intros s. apply normalize_with_idempotent.
  - intros s. apply normalize_with_normalized.
  - intros s. apply normalize_with_fixed.
Qed.

(** A name in normalised form, and a name that is not. *)
Lemma normalize_deterministic_idempotent_witness :
  is_normalized "report-2024_v1.0 final" = true
  /\ normalize_file_or_folder_name "report-2024_v1.0 final" = "report-2024_v1.0 final"
  /\ normalize_file_or_folder_name (normalize_file_or_folder_name "a/b:c*d?.txt")
     = normalize_file_or_folder_name "a/b:c*d?.txt".
Proof.
  destruct normalize_deterministic_idempotent as (_ & Hidem & _ & Hfix).
  split; [reflexivity|]. split.
  - apply Hfix. reflexivity.
  - apply Hidem.
Defined.

(** ** Lists of threads, traces *)

Lemma sum_threads_insert g l i t t' :
  l !! i = Some t ->
  sum_threads g (<[i:=t']> l) = sum_threads g l - g t + g t'.
Proof.
  revert i. induction l as [|x l IH]; intros [|i] H; simplify_eq/=; [lia|].
  rewrite (IH _ H). lia.
Qed.

Lemma sum_threads_fmap g (h : RemoteFile -> Thread) data :
  sum_threads g (h <$> data) = foldr (fun f acc => g (h f) + acc) 0 data.
Proof. induction data as [|f data IH]; simpl; [done|]. f_equal. apply IH. Qed.

Lemma sum_threads_zero g l :
  Forall (fun t => g t = 0) l -> sum_threads g l = 0.
Proof. induction 1; simpl; lia. Qed.

Lemma forallb_exited_lookup l i t :
  forallb exited l = true -> l !! i = Some t -> exists o b, pc t = Exited o b.
Proof.
  rewrite forallb_forall. intros H Hi.
  apply list_elem_of_lookup_2, list_elem_of_In, H in Hi.
  unfold exited in Hi. destruct (pc t); try done. eauto.
Qed.

Lemma sum_threads_start g data :
  (forall f, g {| file := f; pc := Acquire |} = 0) ->
  sum_threads g ((fun f => {| file := f; pc := Acquire |}) <$> data) = 0.
Proof.
  intros Hg. rewrite sum_threads_fmap. induction data; simpl; [done|].
  rewrite Hg. lia.
Qed.

Lemma threads_files_insert (l : list Thread) tid t pc' :
  l !! tid = Some t ->
  file <$> <[tid := {| file := file t; pc := pc' |}]> l = file <$> l.
Proof.
  intros H. rewrite list_fmap_insert. simpl. apply list_insert_id.
  by rewrite list_lookup_fmap, H.
Qed.

Lemma thread_file_in (l : list Thread) tid t :
  l !! tid = Some t -> file t ∈ file <$> l.
Proof.
  intros H. apply list_elem_of_fmap. exists t. split; [done|].
  by eapply list_elem_of_lookup_2.
Qed.

Lemma events_of_cons_eq tid e tr :
  events_of tid ((tid, e) :: tr) = e :: events_of tid tr.
Proof. unfold events_of. rewrite filter_cons. simpl. by rewrite decide_True. Qed.

Lemma events_of_cons_ne tid tid' e tr :
  tid' <> tid -> events_of tid' ((tid, e) :: tr) = events_of tid' tr.
Proof.
  intros H. unfold events_of. rewrite filter_cons. simpl.
  by rewrite decide_False.
Qed.

Lemma names_distinct (l : list Thread) i j t t' :
  NoDup (local_name <$> (file <$> l)) ->
  l !! i = Some t -> l !! j = Some t' -> i <> j ->
  local_name (file t) <> local_name (file t').
Proof.
  intros Hnd Hi Hj Hne Heq. apply Hne.
  eapply (NoDup_lookup _ i j (local_name (file t)) Hnd).
  - by rewrite !list_lookup_fmap, Hi.
  - by rewrite !list_lookup_fmap, Hj, Heq.
Qed.

Lemma lookup_set_thread (l : list Thread) tid tid' t t' x :
  l !! tid = Some t ->
  <[tid := x]> l !! tid' = Some t' ->
  (tid' = tid /\ t' = x) \/ (tid' <> tid /\ l !! tid' = Some t').
Proof.
  intros Ht H. destruct (decide (tid' = tid)) as [->|Hne].
  - rewrite list_lookup_insert_eq in H by (by eapply lookup_lt_Some).
    left. by simplify_eq.
  - rewrite list_lookup_insert_ne in H by done. by right.
Qed.

Lemma lookup_set_thread_ne (l : list Thread) tid tid' t' x :
  tid' <> tid -> l !! tid' = Some t' -> <[tid := x]> l !! tid' = Some t'.
Proof. intros Hne H. by rewrite list_lookup_insert_ne. Qed.

Lemma lookup_set_thread_eq (l : list Thread) tid t x :
  l !! tid = Some t -> <[tid := x]> l !! tid = Some x.
Proof. intros H. rewrite list_lookup_insert_eq; [done|by eapply lookup_lt_Some]. Qed.

(** ** One statement of one thread *)

Ltac step_inv H :=
  unfold step, fault, http_get, limiter_release, progress_update, remove, open_wb,
    write, close_whole, hash_file, semaphore_acquire, semaphore_release in H;
  repeat (case_match; simplify_eq/=); simplify_eq/=.

Lemma chunks_length_nonneg chunks : 0 <= chunks_length chunks.
Proof. induction chunks; simpl; lia. Qed.

Ltac chunks_nonneg :=
  repeat match goal with
  | |- context [chunks_length ?l] =>
      lazymatch goal with
      | _ : 0 <= chunks_length l |- _ => fail
      | _ => pose proof (chunks_length_nonneg l)
      end
  end.

Section Statements.
Variable hexdigest : list byte -> string.
Variable net : string -> Response.

Lemma step_event tid f w pc w' pc' :
  step hexdigest net tid f w pc = Some (w', pc') -> event w' = event w.
Proof. intros H. destruct pc; by step_inv H. Qed.

Lemma step_limiter tid f w pc w' pc' sem :
  step hexdigest net tid f w pc = Some (w', pc') ->
  limiter w = Some sem ->
  exists sem', limiter w' = Some sem' /\ initial_value sem' = initial_value sem.
Proof. intros H Hl. destruct pc; step_inv H; eauto. Qed.

Lemma step_ledger tid f w pc w' pc' p :
  step hexdigest net tid f w pc = Some (w', pc') ->
  progress w = Some p ->
  exists p', progress w' = Some p'
    /\ total_files p' = total_files p /\ total_size p' = total_size p
    /\ completed_files p' = completed_files p + counted_completed pc' - counted_completed pc
    /\ failed_files p' = failed_files p + counted_failed pc' - counted_failed pc
    /\ skipped_files p' = skipped_files p + counted_skipped pc' - counted_skipped pc.
Proof.
  intros H Hp. destruct pc; step_inv H;
    (eexists; split; [first [exact Hp | reflexivity]|]); simpl;
    repeat split; try lia.
  all: destruct e as [|[]]; simpl; lia.
Qed.

Lemma step_pending tid f w pc w' pc' p p' :
  step hexdigest net tid f w pc = Some (w', pc') ->
  body_fits net f ->
  progress w = Some p -> progress w' = Some p' ->
  downloaded_bytes p' + pending net {| file := f; pc := pc' |}
  <= downloaded_bytes p + pending net {| file := f; pc := pc |}.
Proof.
  unfold body_fits, pending. intros H Hfit Hp Hp'.
  destruct pc; step_inv H; unfold streamed_length in *; simpl in *;
    repeat (case_match; simplify_eq/=); chunks_nonneg; lia.
Qed.

Lemma pending_nonneg t : 0 <= pending net t.
Proof.
  unfold pending, streamed_length.
  repeat case_match; chunks_nonneg; lia.
Qed.

Lemma step_fs_other tid f w pc w' pc' path :
  step hexdigest net tid f w pc = Some (w', pc') ->
  path <> local_name f ->
  fs w' !! path = fs w !! path.
Proof.
  intros H Hne. destruct pc; step_inv H; try done.
  all: try (by rewrite lookup_delete_ne).
  all: try (by rewrite lookup_insert_ne).
Qed.


Lemma step_events_other tid tid' f w pc w' pc' :
  step hexdigest net tid f w pc = Some (w', pc') ->
  tid' <> tid ->
  events_of tid' (trace w') = events_of tid' (trace w).
Proof.
  intros H Hne. destruct pc; step_inv H; try done.
  all: by rewrite ?events_of_cons_ne by done.
Qed.

Lemma step_verify_events tid f w pc w' pc' :
  step hexdigest net tid f w pc = Some (w', pc') ->
  is_Some (limiter w) ->
  (pc = Acquire -> events_of tid (trace w) = []) ->
  (verifying pc = true -> events_of tid (trace w) = [EvAcquire]) ->
  pc' <> Acquire
  /\ (verifying pc' = true -> events_of tid (trace w') = [EvAcquire]).
Proof.
  intros H [sem Hl] Ha Hv. destruct pc; step_inv H; try done.
  all: split; [done|]; intros _; rewrite ?events_of_cons_eq; auto.
  by rewrite Ha.
Qed.


Lemma step_skip tid f w pc w' pc' lf p :
  step hexdigest net tid f w pc = Some (w', pc') ->
  skip_path pc = true ->
  fs w !! local_name f = Some lf -> hexdigest (content lf) = expected_hash f ->
  progress w = Some p ->
  skip_path pc' = true
  /\ fs w' = fs w
  /\ requests (trace w') = requests (trace w)
  /\ exists p', progress w' = Some p'
       /\ downloaded_bytes p' = downloaded_bytes p
            + credited {| file := f; pc := pc' |} - credited {| file := f; pc := pc |}.
Proof.
  intros H Hsk Hlf Hh Hp. unfold credited.
  destruct pc; try done; simpl in H; unfold hash_file in H;
    rewrite ?Hlf in H; simpl in H; rewrite ?Hh in H;
    step_inv H; try done;
    repeat split; auto;
    eexists; (split; [first [exact Hp|reflexivity]|]); simpl; lia.
Qed.

End Statements.

(** ** Executions of a batch *)

Section Systems.
Variable hexdigest : list byte -> string.
Variable net : string -> Response.

Lemma exec_reachable schedule s : reachable hexdigest net s (exec hexdigest net schedule s).
Proof.
  revert s. induction schedule as [|a rest IH]; intros s; simpl; [apply rtc_refl|].
  destruct (sys_step hexdigest net a s) as [s'|] eqn:E; simpl; [|apply IH].
  eapply rtc_l; [by exists a|apply IH].
Qed.

Lemma run_reachable schedule s s' :
  run hexdigest net schedule s = Some s' -> reachable hexdigest net s s'.
Proof.
  revert s. induction schedule as [|a rest IH]; intros s H; simplify_eq/=.
  - apply rtc_refl.
  - destruct (sys_step hexdigest net a s) as [s1|] eqn:E; simplify_eq/=.
    eapply rtc_l; [by exists a|by apply IH].
Qed.

(** Induction on the executions of a batch, by the kind of the last
    action. *)
Lemma batch_invariant (P : System -> Prop) s0 s :
  reachable hexdigest net s0 s ->
  P s0 ->
  (forall s tid t w' pc',
      reachable hexdigest net s0 s -> P s -> threads s !! tid = Some t ->
      step hexdigest net tid (file t) (world s) (pc t) = Some (w', pc') ->
      P (set_thread tid (file t) w' pc' s)) ->
  (forall s tid t pc',
      reachable hexdigest net s0 s -> P s -> threads s !! tid = Some t ->
      fault (pc t) = Some pc' ->
      P (set_thread tid (file t) (world s) pc' s)) ->
  (forall s,
      P s -> main s = Polling ->
      P {| world := set_event (Some true) (world s); threads := threads s;
           main := Joining |}) ->
  (forall s m,
      P s -> forallb exited (threads s) = true -> wait_returned m = true ->
      P {| world := world s; threads := threads s; main := m |}) ->
  P s.
Proof.
  intros Hreach H0 Hstep Hfault Hint Hwait.
  revert s Hreach. apply rtc_ind_r; [done|].
  intros s1 s2 Hr [a Ha] IH.
  destruct a as [tid|tid| |]; simpl in Ha.
  - destruct (threads s1 !! tid) as [t|] eqn:Ht; simplify_eq/=.
    destruct (step hexdigest net tid (file t) (world s1) (pc t))
      as [[w' pc']|] eqn:Hs; simplify_eq/=.
    by eapply Hstep.
  - destruct (threads s1 !! tid) as [t|] eqn:Ht; simplify_eq/=.
    destruct (fault (pc t)) as [pc'|] eqn:Hs; simplify_eq/=.
    by eapply Hfault.
  - destruct (main s1) eqn:Hm; simplify_eq/=. by apply Hint.
  - destruct (forallb exited (threads s1)) eqn:Hex; [|done].
    destruct (main s1) eqn:Hm; simplify_eq/=; by apply Hwait.
Qed.

(** Induction on the runs whose actions are all of one kind. *)
Lemma run_invariant (P : System -> Prop) (allowed : Action -> bool) s0 schedule s :
  forallb allowed schedule = true ->
  run hexdigest net schedule s0 = Some s ->
  P s0 ->
  (forall a s1 s2,
      allowed a = true -> reachable hexdigest net s0 s1 -> P s1 ->
      sys_step hexdigest net a s1 = Some s2 -> P s2) ->
  P s.
Proof.
  intros Hall Hrun H0 Hstep.
  assert (forall sched s1,
             forallb allowed sched = true -> reachable hexdigest net s0 s1 ->
             P s1 -> run hexdigest net sched s1 = Some s -> P s) as H.
  { clear Hall Hrun. induction sched as [|a sched IH]; intros s1 Hall Hr HP Hrun;
      simplify_eq/=; [done|].
    destruct (sys_step hexdigest net a s1) as [s2|] eqn:E; simplify_eq/=.
    apply andb_true_iff in Hall as [Ha Hall].
    apply (IH s2); [done| |by eapply Hstep|done].
    eapply rtc_r; [exact Hr|by exists a]. }
  apply (H schedule s0); [done|apply rtc_refl|done..].
Qed.

Lemma run_app l1 l2 s s1 :
  run hexdigest net l1 s = Some s1 ->
  run hexdigest net (l1 ++ l2) s = run hexdigest net l2 s1.
Proof.
  revert s. induction l1 as [|a l1 IH]; intros s H; simplify_eq/=; [done|].
  destruct (sys_step hexdigest net a s) as [s2|]; simplify_eq/=. by apply IH.
Qed.

End Systems.

(** ** The invariants, by induction on the executions *)

Section Invariants.
Variable hexdigest : list byte -> string.
Variable net : string -> Response.
Variable data : list RemoteFile.
Variable threads_num : Z.
Variable disk : gmap string (list byte).

Lemma shape_reachable s :
  reachable hexdigest net (batch_start data threads_num disk) s ->
  batch_shape data threads_num s.
Proof.
  intros Hr. eapply batch_invariant; [exact Hr|..].
  - repeat split; simpl; eauto.
    rewrite <- list_fmap_compose. apply list_fmap_id.
  - intros s1 tid t w' pc' _ (Hf & (sem & Hl & Hi) & (b & Hb)) Ht Hs.
    repeat split; simpl.
    + by rewrite threads_files_insert.
    + destruct (step_limiter _ _ _ _ _ _ _ _ _ Hs Hl) as (sem' & ? & ?).
      exists sem'. split; [done|congruence].
    + exists b. by rewrite (step_event _ _ _ _ _ _ _ _ Hs).
  - intros s1 tid t pc' _ (Hf & Hl & Hb) Ht Hs. repeat split; simpl; try done.
    by rewrite threads_files_insert.
  - intros s1 (Hf & Hl & Hb) Hm. repeat split; simpl; eauto.
  - intros s1 m (Hf & Hl & Hb) _ _. repeat split; simpl; eauto.
Qed.

Lemma ledger_reachable s :
  reachable hexdigest net (batch_start data threads_num disk) s ->
  ledger data s.
Proof.
  intros Hr. eapply batch_invariant; [exact Hr|..].
  - eexists. split; [reflexivity|]. simpl.
    rewrite !sum_threads_start by done. done.
  - intros s1 tid t w' pc' _ (p & Hp & Hn & Hz & Hc & Hf & Hk) Ht Hs.
    destruct (step_ledger _ _ _ _ _ _ _ _ _ Hs Hp)
      as (p' & Hp' & Hn' & Hz' & Hc' & Hf' & Hk').
    exists p'. simpl. rewrite !(sum_threads_insert _ _ _ t) by done. simpl.
    repeat split; try congruence; lia.
  - intros s1 tid t pc' _ (p & Hp & Hn & Hz & Hc & Hf & Hk) Ht Hs.
    exists p. simpl. rewrite !(sum_threads_insert _ _ _ t) by done. simpl.
    destruct (pc t); simplify_eq/=; repeat split; try done; lia.
  - intros s1 (p & Hp & H) _. by exists p.
  - intros s1 m (p & Hp & H) _ _. by exists p.
Qed.

Lemma bytes_reachable s :
  (forall f, f ∈ data -> body_fits net f) ->
  reachable hexdigest net (batch_start data threads_num disk) s ->
  bytes_bounded net s.
Proof.
  intros Hfit Hr.
  cut (file <$> threads s = data /\ bytes_bounded net s); [tauto|].
  pattern s. eapply batch_invariant; [exact Hr|..].
  - split; [apply (shape_reachable _ (rtc_refl _ _))|].
    eexists. split; [reflexivity|]. simpl.
    rewrite sum_threads_fmap. unfold declared_total, pending. simpl. lia.
  - intros s1 tid t w' pc' _ (Hd & p & Hp & Hb) Ht Hs.
    split; [simpl; by rewrite threads_files_insert|].
    destruct (step_ledger _ _ _ _ _ _ _ _ _ Hs Hp) as (p' & Hp' & _ & Hz' & _).
    exists p'. split; [done|]. simpl.
    rewrite (sum_threads_insert _ _ _ t) by done.
    assert (body_fits net (file t)) as Hft.
    { apply Hfit. rewrite <- Hd. by eapply thread_file_in. }
    pose proof (step_pending _ _ _ _ _ _ _ _ _ _ Hs Hft Hp Hp') as Hle.
    destruct t as [f pc0]. simpl in *. lia.
  - intros s1 tid t pc' _ (Hd & p & Hp & Hb) Ht Hs.
    split; [simpl; by rewrite threads_files_insert|].
    exists p. split; [done|]. simpl.
    rewrite (sum_threads_insert _ _ _ t) by done.
    pose proof (pending_nonneg net t).
    assert (pending net {| file := file t; pc := pc' |} = 0) as ->; [|lia].
    destruct (pc t); by simplify_eq/=.
  - intros s1 (Hd & p & Hp & H) _. split; [done|]. by exists p.
  - intros s1 m (Hd & p & Hp & H) _ _. split; [done|]. by exists p.
Qed.


Lemma permit_reachable s :
  reachable hexdigest net (batch_start data threads_num disk) s ->
  permit_before_verify s.
Proof.
  intros Hr. eapply batch_invariant; [exact Hr|..].
  - intros tid t Ht. split; [done|]. simpl in Ht. rewrite list_lookup_fmap in Ht.
    destruct (data !! tid); by simplify_eq/=.
  - intros s1 tid t w' pc' Hr1 IH Ht Hs tid' t' Ht'. simpl in *.
    destruct (IH _ _ Ht) as [Ha Hv].
    destruct (lookup_set_thread _ _ _ _ _ _ Ht Ht') as [[-> ->]|[Hne Ht1]]; simpl.
    + apply shape_reachable in Hr1 as (_ & (sem & Hl & _) & _).
      destruct (step_verify_events _ _ _ _ _ _ _ _ Hs) as [Hna Hv']; eauto.
      split; [done|exact Hv'].
    + rewrite (step_events_other _ _ _ _ _ _ _ _ _ Hs Hne). exact (IH _ _ Ht1).
  - intros s1 tid t pc' Hr1 IH Ht Hs tid' t' Ht'. simpl in *.
    destruct (lookup_set_thread _ _ _ _ _ _ Ht Ht') as [[-> ->]|[Hne Ht1]]; simpl.
    + destruct (pc t); by simplify_eq/=.
    + exact (IH _ _ Ht1).
  - intros s1 IH _ tid t Ht. exact (IH _ _ Ht).
  - intros s1 m IH _ _ tid t Ht. exact (IH _ _ Ht).
Qed.


Lemma skipping_run schedule s :
  (forall f, f ∈ data ->
     exists c, disk !! local_name f = Some c /\ hexdigest c = expected_hash f) ->
  forallb no_fault schedule = true ->
  run hexdigest net schedule (batch_start data threads_num disk) = Some s ->
  all_skipping disk s.
Proof.
  intros Hpresent Hall Hrun. eapply run_invariant; [exact Hall|exact Hrun|..].
  - split; [done|]. split.
    { simpl. apply Forall_fmap, Forall_true. done. }
    split; [done|]. eexists. split; [reflexivity|]. simpl.
    by rewrite sum_threads_start.
  - intros a s1 s2 Ha Hr1 (Hfs & Hsk & Hrq & p & Hp & Hd) Hstep.
    destruct a as [tid|tid| |]; simpl in Hstep; [|done|..].
    + destruct (threads s1 !! tid) as [t|] eqn:Ht; simplify_eq/=.
      destruct (step hexdigest net tid (file t) (world s1) (pc t))
        as [[w' pc']|] eqn:Hs; simplify_eq/=.
      apply shape_reachable in Hr1 as (Hfiles & _).
      destruct (Hpresent (file t)) as (c & Hc & Hh).
      { rewrite <- Hfiles. by eapply thread_file_in. }
      assert (fs (world s1) !! local_name (file t)
              = Some {| content := c; status := Whole |}) as Hlf.
      { by rewrite Hfs, lookup_fmap, Hc. }
      destruct (step_skip _ _ _ _ _ _ _ _ _ _ Hs
                  (Forall_lookup_1 _ _ _ _ Hsk Ht) Hlf Hh Hp)
        as (Hsk' & Hfs' & Hrq' & p' & Hp' & Hd').
      split; [simpl; congruence|]. split; [by apply Forall_insert|].
      split; [simpl; congruence|]. exists p'. split; [done|]. simpl.
      rewrite (sum_threads_insert _ _ _ t) by done.
      destruct t as [f pc0]. simpl in *. lia.
    + destruct (main s1); simplify_eq/=.
      split; [done|]. split; [done|]. split; [done|]. by exists p.
    + destruct (forallb exited (threads s1)); [|done].
      destruct (main s1); simplify_eq/=;
        (split; [done|]; split; [done|]; split; [done|]; by exists p).
Qed.

End Invariants.

(** ** The counters of a batch (C2) *)

Lemma sum_threads_nonneg g l :
  (forall t, 0 <= g t) -> 0 <= sum_threads g l.
Proof. intros Hg. induction l as [|t l IH]; simpl; [lia|]. specialize (Hg t). lia. Qed.






(** ** Files left behind (C4) *)



(** ** The permit and the verifying step (C8) *)

(** C8, as amended. In a batch the permit is acquired as the first
    statement of the task, before the verifying step: a thread that is
    checking its local file, or removing a stale one, has acquired its
    permit and has not released it. *)
Theorem verifying_holds_permit hexdigest net data threads_num disk s tid t :
  reachable hexdigest net (batch_start data threads_num disk) s ->
  threads s !! tid = Some t ->
  verifying (pc t) = true ->
  events_of tid (trace (world s)) = [EvAcquire].
Proof.
  intros Hr Ht Hv. destruct (permit_reachable _ _ _ _ _ _ Hr _ _ Ht) as [_ H].
  by apply H.
Qed.

(** After its first statement the thread is verifying. *)
Lemma verifying_holds_permit_witness :
  let s := exec demo_digest demo_net (runs 0 1) (batch_start [file_a] 1 disk_with_a) in
  threads s !! 0%nat = Some {| file := file_a; pc := Verify |}
  /\ events_of 0 (trace (world s)) = [EvAcquire].
Proof.
  intros s. split; [vm_compute; reflexivity|].
  apply (verifying_holds_permit demo_digest demo_net [file_a] 1 disk_with_a s 0
           {| file := file_a; pc := Verify |}).
  - apply exec_reachable.
  - vm_compute; reflexivity.
  - reflexivity.
Defined.

(** C8, as stated, fails: after its first statement the only thread of
    a batch with one permit is in the verifying step and the permit is
    taken. *)
Lemma verifying_with_permit_taken :
  let s := exec demo_digest demo_net (runs 0 1) (batch_start [file_a] 1 disk_with_a) in
  pc <$> threads s = [Verify]
  /\ limiter (world s) = Some {| value := 0; initial_value := 1 |}
  /\ trace (world s) = [(0%nat, EvAcquire)].
Proof. vm_compute. repeat split. Qed.

(** ** Files that are already there (C3, C5) *)

Lemma sum_all_skipped l :
  Forall (fun t => exists raised, pc t = Exited Skipped raised) l ->
  sum_threads (fun t => counted_skipped (pc t)) l = Z.of_nat (length l)
  /\ sum_threads (fun t => counted_completed (pc t)) l = 0
  /\ sum_threads (fun t => counted_failed (pc t)) l = 0
  /\ sum_threads credited l = declared_total (file <$> l).
Proof.
  induction 1 as [|t l [b Ht] _ (IH1 & IH2 & IH3 & IH4)]; [done|].
  simpl. unfold credited at 1. rewrite Ht. simpl. repeat split; try lia.
  f_equal. exact IH4.
Qed.

(** C5, as stated, fails: the only file of the batch is present with
    the expected hash, nothing is requested, the file is skipped, and
    its ten declared bytes are counted in [downloaded_bytes]. *)
Lemma skipped_file_counts_its_size :
  let s := exec demo_digest demo_net (runs 0 4 ++ [Wait])%list
             (batch_start [file_a] 1 disk_with_a) in
  pc <$> threads s = [Exited Skipped false]
  /\ requests (trace (world s)) = []
  /\ downloaded_bytes <$> progress (world s) = Some 10.
Proof. vm_compute. repeat split. Qed.

Lemma run_thread_S hexdigest net fuel tid f w pc w1 pc1 :
  step hexdigest net tid f w pc = Some (w1, pc1) ->
  run_thread hexdigest net (S fuel) tid f w pc
  = run_thread hexdigest net fuel tid f w1 pc1.
Proof. intros H. simpl. by rewrite H. Qed.

(** C3, as amended. A call of [download_file] that finds its file with
    the expected hash ends [Skipped] after four statements, without a
    request and without touching the directory. The skip adds one to
    [skipped_files] and the declared size to [downloaded_bytes]; it
    leaves [completed_files], which is the count of the "Total:" line,
    and [failed_files] as they were, and shows in the "Skipped:" line. *)
Theorem skip_is_counted_as_skipped hexdigest net f w lf p :
  fs w !! local_name f = Some lf ->
  hexdigest (content lf) = expected_hash f ->
  progress w = Some p ->
  (forall sem, limiter w = Some sem -> value sem <> 0) ->
  exists w' raised p',
    download_file hexdigest net 4 f w = (w', Exited Skipped raised)
    /\ requests (trace w') = requests (trace w)
    /\ fs w' = fs w
    /\ progress w' = Some p'
    /\ skipped_files p' = skipped_files p + 1
    /\ completed_files p' = completed_files p
    /\ failed_files p' = failed_files p
    /\ downloaded_bytes p' = downloaded_bytes p + Z.of_N (file_size f)
    /\ total_line (finish p') = completed_files p
    /\ (0 <= skipped_files p ->
        skipped_line (finish p') = Some (skipped_files p + 1)).
Proof.
  intros Hlf Hh Hp Hsem. unfold download_file.
  assert (exists w1, step hexdigest net 0 f w Acquire = Some (w1, Verify)
            /\ fs w1 = fs w /\ progress w1 = Some p
            /\ requests (trace w1) = requests (trace w)) as (w1 & E1 & F1 & P1 & R1).
  { unfold step. destruct (limiter w) as [sem|] eqn:Hl; [|eauto].
    unfold semaphore_acquire. rewrite decide_False by eauto.
    eexists. split; [reflexivity|]. done. }
  rewrite (run_thread_S _ _ _ _ _ _ _ _ _ E1).
  assert (step hexdigest net 0 f w1 Verify = Some (w1, SkipUpdate)) as E2.
  { unfold step, hash_file. rewrite F1, Hlf. simpl. by rewrite decide_True. }
  rewrite (run_thread_S _ _ _ _ _ _ _ _ _ E2).
  assert (step hexdigest net 0 f w1 SkipUpdate
          = Some (set_progress
                    (Some (update p (Z.of_N (file_size f)) false false true)) w1,
                  SkipRelease)) as E3.
  { unfold step, progress_update. by rewrite P1. }
  rewrite (run_thread_S _ _ _ _ _ _ _ _ _ E3).
  simpl. unfold limiter_release. simpl.
  destruct (limiter w1) as [sem|]; [destruct (semaphore_release sem)|];
    simpl; do 3 eexists; (split; [reflexivity|]); simpl;
    repeat split; try done.
  all: intros ?; simpl; by rewrite decide_True by lia.
Qed.

(** The same file, from the first state of its batch. *)
Lemma skip_is_counted_as_skipped_witness :
  exists w' raised p',
    download_file demo_digest demo_net 4 file_a
      (world (batch_start [file_a] 1 disk_with_a)) = (w', Exited Skipped raised)
    /\ skipped_files p' = 0 + 1
    /\ completed_files p' = 0
    /\ total_line (finish p') = 0.
Proof.
  destruct (skip_is_counted_as_skipped demo_digest demo_net file_a
              (world (batch_start [file_a] 1 disk_with_a))
              {| content := (demo_chunk1 ++ demo_chunk2)%list; status := Whole |}
              (ProgressTracker_init 1 10))
    as (w' & raised & p' & Hrun & _ & _ & _ & Hsk & Hc & _ & _ & Ht & _).
  - vm_compute; reflexivity.
  - vm_compute; reflexivity.
  - vm_compute; reflexivity.
  - intros sem Hsem. vm_compute in Hsem. injection Hsem as <-. vm_compute. discriminate.
  - exists w', raised, p'. repeat split; assumption.
Defined.

(** C3, as stated, fails: [get_file] on a file that is present with the
    expected hash ends [Skipped] with [completed_files] at zero, and
    [finish] prints "Total: 0 files". *)
Lemma skip_not_in_completed_total :
  let '(w', pc', summary) := get_file demo_digest demo_net 4 file_a disk_with_a in
  pc' = Exited Skipped false
  /\ completed_files <$> progress w' = Some 0
  /\ skipped_files <$> progress w' = Some 1
  /\ summary = Some {| total_line := 0; failed_line := None; skipped_line := Some 1 |}.
Proof. vm_compute. repeat split. Qed.

(** ** The byte counter (C10) *)

Lemma step_downloaded_mono hexdigest net tid f w pc w' pc' :
  step hexdigest net tid f w pc = Some (w', pc') ->
  downloaded w <= downloaded w'.
Proof. intros H. unfold downloaded. destruct pc; step_inv H; lia. Qed.

Lemma sys_step_downloaded_mono hexdigest net a s s' :
  sys_step hexdigest net a s = Some s' ->
  downloaded (world s) <= downloaded (world s').
Proof.
  intros H. destruct a as [tid|tid| |]; simpl in H.
  - destruct (threads s !! tid) as [t|]; simplify_eq/=.
    destruct (step hexdigest net tid (file t) (world s) (pc t))
      as [[w' pc']|] eqn:Hs; simplify_eq/=.
    by eapply step_downloaded_mono.
  - destruct (threads s !! tid) as [t|]; simplify_eq/=.
    destruct (fault (pc t)); simplify_eq/=. done.
  - destruct (main s); simplify_eq/=. done.
  - destruct (forallb exited (threads s)); [|done].
    destruct (main s); simplify_eq/=; done.
Qed.

Lemma exec_app hexdigest net l1 l2 s :
  exec hexdigest net (l1 ++ l2) s = exec hexdigest net l2 (exec hexdigest net l1 s).
Proof. revert s. induction l1 as [|a l1 IH]; intros s; simpl; [done|]. apply IH. Qed.

(** C10. No action of a batch decreases [downloaded_bytes], from any
    state whatsoever; the bytes counted for the chunks of a file stay
    in the total when the file is removed: in the first run the task is
    cancelled after its first chunk of four bytes, in the second its
    second read raises, and both end with the file gone and
    [downloaded_bytes] at four. *)
Theorem downloaded_bytes_never_decrease :
  (forall hexdigest net s s',
      reachable hexdigest net s s' ->
      downloaded (world s) <= downloaded (world s'))
  /\ (let s := exec demo_digest demo_net cancel_midstream
                 (batch_start [file_a] 1 ∅) in
      pc <$> threads s = [Exited Cancelled true]
      /\ fs (world s) !! local_name file_a = None
      /\ downloaded_bytes <$> progress (world s) = Some 4)
  /\ (let s := exec demo_digest demo_net fail_midstream
                 (batch_start [file_a] 1 ∅) in
      pc <$> threads s = [Exited (Failed (Raised TransferIOError)) false]
      /\ fs (world s) !! local_name file_a = None
      /\ downloaded_bytes <$> progress (world s) = Some 4
      /\ main s = Finished (Some {| total_line := 0; failed_line := Some 1;
                                    skipped_line := None |})).
Proof.
  split; [|split; vm_compute; repeat split].
  intros hexdigest net s s' Hr. induction Hr as [|s1 s2 s3 [a Ha] _ IH]; [done|].
  apply sys_step_downloaded_mono in Ha. lia.
Qed.

(** From the state after the first chunk to the end of the cancelled
    run. *)
Lemma downloaded_bytes_never_decrease_witness :
  let s0 := exec demo_digest demo_net (runs 0 11) (batch_start [file_a] 1 ∅) in
  let s := exec demo_digest demo_net cancel_midstream (batch_start [file_a] 1 ∅) in
  downloaded (world s0) = 4 /\ downloaded (world s0) <= downloaded (world s).
Proof.
  intros s0 s. split; [vm_compute; reflexivity|].
  destruct downloaded_bytes_never_decrease as [Hmono _].
  apply (Hmono demo_digest demo_net s0 s).
  change cancel_midstream
    with (runs 0 11 ++ ([KeyboardInterrupt] ++ runs 0 5 ++ [Wait]))%list in s.
  subst s s0. rewrite exec_app. apply exec_reachable.
Defined.

(** ** Permits (C1, C7) *)

(** On the early returns inside the [try] block the permit is released
    by the returning branch and again by the [finally] clause, whatever
    the state of the batch: the second call succeeds or raises. *)
Lemma early_return_releases_twice hexdigest net tid f w r sem :
  limiter w = Some sem ->
  value sem + 1 <= initial_value sem ->
  exists w1 w2 raised,
    step hexdigest net tid f w (FailRelease r)
    = Some (w1, Finally (Failed (Rejected r)))
    /\ step hexdigest net tid f w1 (Finally (Failed (Rejected r)))
       = Some (w2, Exited (Failed (Rejected r)) raised)
    /\ trace w2
       = (tid, if raised then EvReleaseError else EvRelease)
         :: (tid, EvRelease) :: trace w.
Proof.
  intros Hl Hv.
  set (sem1 := {| value := value sem + 1; initial_value := initial_value sem |}).
  set (w1 := log tid EvRelease (set_limiter (Some sem1) w)).
  assert (step hexdigest net tid f w (FailRelease r)
          = Some (w1, Finally (Failed (Rejected r)))) as E1.
  { unfold step, limiter_release, semaphore_release. rewrite Hl.
    by rewrite decide_False by lia. }
  destruct (semaphore_release sem1) as [sem2|] eqn:E.
  - exists w1, (log tid EvRelease (set_limiter (Some sem2) w1)), false.
    split; [exact E1|]. split; [|done].
    unfold step, limiter_release. simpl. by rewrite E.
  - exists w1, (log tid EvReleaseError w1), true.
    split; [exact E1|]. split; [|done].
    unfold step, limiter_release. simpl. by rewrite E.
Qed.

(** C1 fails on the code. The server answers 404: the only task of a
    batch with one permit calls [release] on line 479 and again on
    line 520, and the second call raises. With two permits and four
    files, the two releases of a refused task let two waiting threads
    in, and three tasks transfer at the same time. *)
Lemma refused_task_releases_twice :
  (let s := exec demo_digest demo_net (runs 0 9) (batch_start [file_gone] 1 ∅) in
   pc <$> threads s = [Exited (Failed (Rejected RemoteStatusError)) true]
   /\ trace (world s)
      = [(0%nat, EvReleaseError); (0%nat, EvRelease);
         (0%nat, EvRequest "https://dl/gone"); (0%nat, EvAcquire)])
  /\ (let s := exec demo_digest demo_net three_with_two_permits
                 (batch_start [file_gone; file_b; file_c; file_d] 2 ∅) in
      events_of 0 (trace (world s))
      = [EvRelease; EvRelease; EvRequest "https://dl/gone"; EvAcquire]
      /\ transferring <$> threads s = [false; true; true; true]
      /\ limiter (world s) = Some {| value := 0; initial_value := 2 |}).
Proof. vm_compute. repeat split. Qed.

(** C7 fails on the code. The interstitial page has no download button:
    the only task of a batch with one permit counts the failure,
    releases its permit on line 449 and again on line 520, and the
    [ValueError] of the second call leaves [download_file]. Without a
    limiter ([get_file]) the same failure is counted and the call
    returns. *)
Lemma extraction_failure_raises :
  (let s := exec demo_digest demo_net (runs 0 9 ++ [Wait])%list
              (batch_start [file_blocked] 1 ∅) in
   pc <$> threads s = [Exited (Failed (Rejected ExtractionFailure)) true]
   /\ failed_files <$> progress (world s) = Some 1
   /\ trace (world s)
      = [(0%nat, EvReleaseError); (0%nat, EvRelease);
         (0%nat, EvRequest "https://dl/blocked"); (0%nat, EvAcquire)])
  /\ (let '(w', pc', summary) := get_file demo_digest demo_net 9 file_blocked ∅ in
      pc' = Exited (Failed (Rejected ExtractionFailure)) false
      /\ failed_files <$> progress w' = Some 1).
Proof. vm_compute. repeat split. Qed.

(** ** The directory walk (C6) *)

(** C6 fails on the code. The folder of the first call is created under
    its normalised name, "Holiday- 2024"; the subfolder "day: one" is
    created under its raw name, not under "day- one". *)
Lemma subfolder_created_under_raw_name :
  made <$> get_folders demo_outcome demo_tree "out" true demo_shell
  = Some [["home"; "out"; "Holiday- 2024"];
          ["home"; "out"; "Holiday- 2024"; "day: one"];
          ["home"; "out"; "Holiday- 2024"; "misc"]]
  /\ normalize_file_or_folder_name "day: one" = "day- one".
Proof. vm_compute. split; reflexivity. Qed.

(** * Further properties of the code *)

(** ** ProgressTracker.update *)

(** X1. Two updates give the same tracker in either order: the counters
    do not depend on the order in which the threads take the lock. *)
Theorem update_commutes p b1 c1 f1 s1 b2 c2 f2 s2 :
  update (update p b1 c1 f1 s1) b2 c2 f2 s2
  = update (update p b2 c2 f2 s2) b1 c1 f1 s1.
Proof.
  unfold update. simpl. f_equal; try lia.
  - destruct c1, c2; lia.
  - destruct f1, f2; lia.
  - destruct s1, s2; lia.
Qed.

(** ** Normalised names as path components *)

Lemma kept_not_slash c : kept isalnum c = true -> Ascii.eqb "/"%char c = false.
Proof.
  intros H. destruct (Ascii.eqb "/"%char c) eqn:E; [|done].
  apply Ascii.eqb_eq in E. subst c. vm_compute in H. discriminate.
Qed.

Lemma char_in_cons a c s :
  char_in a (String c s) = if Ascii.eqb a c then true else char_in a s.
Proof. reflexivity. Qed.

Lemma normalize_no_slash s :
  char_in "/"%char (normalize_file_or_folder_name s) = false.
Proof.
  induction s as [|c s IH]; [done|].
  unfold normalize_file_or_folder_name in *. cbn [normalize_with].
  destruct (kept isalnum c) eqn:Hc.
  - change (String ?a "" +:+ ?x) with (String a x). rewrite char_in_cons.
    by rewrite (kept_not_slash _ Hc).
  - exact IH.
Qed.

Lemma string_app_cons c s t : String c s +:+ t = String c (s +:+ t).
Proof. reflexivity. Qed.

Lemma string_app_empty s : s +:+ "" = s.
Proof.
  induction s as [|c s IH]; [done|]. by rewrite string_app_cons, IH.
Qed.

Lemma string_app_snoc s c t : (s +:+ String c "") +:+ t = s +:+ String c t.
Proof.
  induction s as [|a s IH]; [done|]. by rewrite !string_app_cons, IH.
Qed.

Lemma components_from_no_slash current s :
  char_in "/"%char s = false -> components_from current s = [current +:+ s].
Proof.
  revert current.
  induction s as [|c s IH]; intros current H; cbn [components_from].
  - by rewrite string_app_empty.
  - rewrite char_in_cons in H.
    rewrite Ascii.eqb_sym. destruct (Ascii.eqb "/"%char c) eqn:E; [done|].
    rewrite IH by done. by rewrite string_app_snoc.
Qed.

Lemma resolve_one_component dir name :
  char_in "/"%char name = false ->
  resolve dir name
  = if decide (name = "..") then removelast dir
    else if decide (name = "" \/ name = ".") then dir
    else (dir ++ [name])%list.
Proof.
  intros Hslash.
  unfold resolve, components. rewrite components_from_no_slash by done.
  change ("" +:+ name) with name.
  assert (is_absolute name = false) as ->.
  { destruct name as [|c name]; [done|]. simpl. rewrite char_in_cons in Hslash.
    rewrite Ascii.eqb_sym. by destruct (Ascii.eqb "/"%char c). }
  done.
Qed.

(** X2. A normalised name has the length of the raw name and contains
    no "/": as a path it is one component, and from a directory it
    leads to an entry of that directory, with three exceptions, names
    that normalisation leaves as they are: "" and "." lead to the
    directory itself and ".." to its parent. *)
Theorem normalize_is_one_component s dir :
  let name := normalize_file_or_folder_name s in
  String.length name = String.length s
  /\ char_in "/"%char name = false
  /\ components name = [name]
  /\ resolve dir name
     = (if decide (name = "..") then removelast dir
        else if decide (name = "" \/ name = ".") then dir
        else (dir ++ [name])%list)
  /\ normalize_file_or_folder_name "" = ""
  /\ normalize_file_or_folder_name "." = "."
  /\ normalize_file_or_folder_name ".." = "..".
Proof.
  intros name. split; [|split; [|split; [|split]]].
  - unfold name, normalize_file_or_folder_name.
    induction s as [|c s IH]; [done|]. cbn [normalize_with String.length].
    destruct (kept isalnum c);
      [|unfold NON_ALPHANUM_FILE_OR_FOLDER_NAME_CHARACTER_REPLACEMENT];
      rewrite string_app_cons; change ("" +:+ ?x) with x;
      cbn [String.length]; by rewrite IH.
  - apply normalize_no_slash.
  - unfold components. by rewrite components_from_no_slash by apply normalize_no_slash.
  - apply resolve_one_component, normalize_no_slash.
  - repeat split; vm_compute; reflexivity.
Qed.

(** ** The semaphore and the counters in a batch *)

Lemma step_semaphore_bounds hexdigest net tid f w pc w' pc' sem :
  step hexdigest net tid f w pc = Some (w', pc') ->
  limiter w = Some sem -> 0 <= value sem <= initial_value sem ->
  exists sem', limiter w' = Some sem'
    /\ initial_value sem' = initial_value sem
    /\ 0 <= value sem' <= initial_value sem'.
Proof.
  intros H Hl Hv. destruct pc; step_inv H; eexists; (split; [done|]); simpl; lia.
Qed.

(** X3. In every execution of a batch the counter of the semaphore
    stays between 0 and [threads_num]: the double release of the early
    returns raises rather than push it above its initial value. *)
Theorem semaphore_stays_in_bounds hexdigest net data threads_num disk s :
  0 <= threads_num ->
  reachable hexdigest net (batch_start data threads_num disk) s ->
  exists sem, limiter (world s) = Some sem
    /\ initial_value sem = threads_num
    /\ 0 <= value sem <= threads_num.
Proof.
  intros Hk Hr. pattern s. eapply batch_invariant; [exact Hr|..].
  - eexists. split; [reflexivity|]. simpl. lia.
  - intros s1 tid t w' pc' _ (sem & Hl & Hi & Hv) Ht Hs. simpl.
    destruct (step_semaphore_bounds _ _ _ _ _ _ _ _ _ Hs Hl) as (sem' & ? & ? & ?);
      [lia|].
    exists sem'. split; [done|]. lia.
  - intros s1 tid t pc' _ IH _ _. exact IH.
  - intros s1 IH _. exact IH.
  - intros s1 m IH _ _. exact IH.
Qed.

Lemma semaphore_stays_in_bounds_witness :
  let s := exec demo_digest demo_net three_with_two_permits
             (batch_start [file_gone; file_b; file_c; file_d] 2 ∅) in
  exists sem, limiter (world s) = Some sem
    /\ initial_value sem = 2 /\ 0 <= value sem <= 2.
Proof.
  intros s.
  apply (semaphore_stays_in_bounds demo_digest demo_net
           [file_gone; file_b; file_c; file_d] 2 ∅ s).
  - lia.
  - apply exec_reachable.
Defined.

(** X4. With [threads_num = 0] (the command line accepts [-t 0]) no
    thread of a batch ever gets past [acquire]: nothing is requested,
    written or counted, and for a non-empty listing neither the polling
    loop nor the joins after Ctrl-C come to an end. *)
Theorem zero_permits_block_everything hexdigest net data disk s :
  reachable hexdigest net (batch_start data 0 disk) s ->
  threads s = threads (batch_start data 0 disk)
  /\ limiter (world s) = Some {| value := 0; initial_value := 0 |}
  /\ progress (world s) = progress (world (batch_start data 0 disk))
  /\ fs (world s) = fs (world (batch_start data 0 disk))
  /\ trace (world s) = []
  /\ (data <> [] -> wait_returned (main s) = false).
Proof.
  intros Hr. pattern s. eapply batch_invariant; [exact Hr|..].
  - repeat split; done.
  - intros s1 tid t w' pc' _ (Ht & Hl & _) Hlook Hs. exfalso.
    rewrite Ht in Hlook. simpl in Hlook. rewrite list_lookup_fmap in Hlook.
    destruct (data !! tid); simplify_eq/=. unfold step in Hs. rewrite Hl in Hs. done.
  - intros s1 tid t pc' _ (Ht & _) Hlook Hs. exfalso.
    rewrite Ht in Hlook. simpl in Hlook. rewrite list_lookup_fmap in Hlook.
    destruct (data !! tid); simplify_eq/=.
  - intros s1 (Ht & Hl & Hp & Hf & Htr & Hw) _. repeat split; done.
  - intros s1 m (Ht & Hl & Hp & Hf & Htr & Hw) Hex _. repeat split; try done.
    intros Hd. exfalso. rewrite Ht in Hex. destruct data; [done|]. done.
Qed.

Lemma zero_permits_block_everything_witness :
  let s := exec demo_digest demo_net
             (runs 0 3 ++ [KeyboardInterrupt] ++ runs 1 3 ++ [Wait])%list
             (batch_start [file_a; file_b] 0 ∅) in
  pc <$> threads s = [Acquire; Acquire] /\ main s = Joining
  /\ trace (world s) = [].
Proof.
  intros s. split; [vm_compute; reflexivity|]. split; [vm_compute; reflexivity|].
  destruct (zero_permits_block_everything demo_digest demo_net
              [file_a; file_b] ∅ s) as (_ & _ & _ & _ & Htr & _).
  - apply exec_reachable.
  - exact Htr.
Defined.

Lemma sum_threads_le g h l :
  (forall t, g t <= h t) -> sum_threads g l <= sum_threads h l.
Proof. intros H. induction l as [|t l IH]; simpl; [lia|]. specialize (H t). lia. Qed.

Lemma sum_threads_const l : sum_threads (fun _ => 1) l = Z.of_nat (length l).
Proof. induction l as [|t l IH]; simpl; lia. Qed.

(** X5. At every moment of a batch, [completed_files] and
    [skipped_files] are not negative and together at most
    [total_files]; when no body served is longer than the declared size
    of its file, [downloaded_bytes] is at most [total_size]: the two
    percentages of a progress line do not exceed 100. *)
Theorem progress_never_exceeds_totals hexdigest net data threads_num disk s :
  reachable hexdigest net (batch_start data threads_num disk) s ->
  exists p, progress (world s) = Some p
    /\ 0 <= completed_files p /\ 0 <= skipped_files p /\ 0 <= failed_files p
    /\ completed_files p + skipped_files p <= total_files p
    /\ ((forall f, f ∈ data -> body_fits net f) ->
        downloaded_bytes p <= total_size p).
Proof.
  intros Hr.
  destruct (ledger_reachable _ _ _ _ _ _ Hr) as (p & Hp & Hn & Hz & Hc & Hf & Hk).
  destruct (shape_reachable _ _ _ _ _ _ Hr) as (Hfiles & _).
  exists p. split; [done|].
  assert (forall pc, 0 <= counted_completed pc /\ 0 <= counted_skipped pc
                     /\ 0 <= counted_failed pc
                     /\ counted_completed pc + counted_skipped pc <= 1) as Hpc.
  { intros pc0. destruct pc0 as [| | | | | | | | | | | | | | | | | | | |e|e|o|o ?];
      simpl; try lia.
    all: try (destruct e as [|[]]; simpl; lia).
    all: destruct o as [| | |[|[|[]]]|]; simpl; lia. }
  rewrite Hc, Hf, Hk, Hn. repeat split.
  - apply sum_threads_nonneg. intros t. apply Hpc.
  - apply sum_threads_nonneg. intros t. apply Hpc.
  - apply sum_threads_nonneg. intros t. apply Hpc.
  - assert (length data = length (threads s)) as ->
      by (by rewrite <- Hfiles, length_fmap).
    rewrite <- sum_threads_const.
    pose proof (sum_threads_le
      (fun t => counted_completed (pc t) + counted_skipped (pc t)) (fun _ => 1)
      (threads s)) as Hle.
    assert (sum_threads (fun t => counted_completed (pc t) + counted_skipped (pc t))
              (threads s)
            = sum_threads (fun t => counted_completed (pc t)) (threads s)
              + sum_threads (fun t => counted_skipped (pc t)) (threads s)) as Hsum.
    { clear. induction (threads s) as [|t l IH]; simpl; lia. }
    rewrite <- Hsum. apply Hle. intros t. apply Hpc.
  - intros Hfit.
    destruct (bytes_reachable _ _ _ _ _ _ Hfit Hr) as (p' & Hp' & Hb).
    simplify_eq.
    pose proof (sum_threads_nonneg (pending net) (threads s) (pending_nonneg net)).
    lia.
Qed.

Lemma progress_never_exceeds_totals_witness :
  let s := exec demo_digest demo_net (runs 0 15)
             (batch_start [file_a; file_gone] 2 ∅) in
  exists p, progress (world s) = Some p
    /\ downloaded_bytes p = 10
    /\ completed_files p + skipped_files p <= total_files p.
Proof.
  intros s.
  destruct (progress_never_exceeds_totals demo_digest demo_net
              [file_a; file_gone] 2 ∅ s) as (p & Hp & _ & _ & _ & Hle & _).
  - apply exec_reachable.
  - exists p. split; [exact Hp|]. split; [|exact Hle].
    clear Hle. vm_compute in Hp. injection Hp as <-. reflexivity.
Defined.

(** ** Cancellation *)

Lemma step_not_started hexdigest net tid f w pc w' pc' :
  step hexdigest net tid f w pc = Some (w', pc') ->
  event w = Some true -> not_started pc = true ->
  not_started pc' = true
  /\ requests_of tid (trace w') = requests_of tid (trace w).
Proof.
  intros H He Hn. unfold requests_of.
  destruct pc; try done; unfold step, event_is_set in H; rewrite ?He in H;
    step_inv H; rewrite ?events_of_cons_eq; done.
Qed.

(** X6. Once the event is set it stays set, and a task that has not
    yet passed the check of line 417 never sends a request: it stays
    before the request, blocked or on its way to a skip or to the
    early return, whatever the other threads do. *)
Theorem no_request_after_cancellation hexdigest net s s' tid t :
  event (world s) = Some true ->
  threads s !! tid = Some t ->
  not_started (pc t) = true ->
  reachable hexdigest net s s' ->
  event (world s') = Some true
  /\ requests_of tid (trace (world s')) = requests_of tid (trace (world s))
  /\ exists t', threads s' !! tid = Some t'
       /\ file t' = file t /\ not_started (pc t') = true.
Proof.
  intros He Ht Hn Hr. pattern s'. eapply batch_invariant; [exact Hr|..].
  - split; [done|]. split; [done|]. by exists t.
  - intros s1 tid1 t1 w' pc' _ (He1 & Hrq & t' & Ht' & Hf' & Hn') Ht1 Hs. simpl.
    split; [by rewrite (step_event _ _ _ _ _ _ _ _ Hs)|].
    destruct (decide (tid1 = tid)) as [->|Hne].
    + simplify_eq.
      destruct (step_not_started _ _ _ _ _ _ _ _ Hs He1 Hn') as [Hn2 Hr2].
      split; [congruence|].
      exists {| file := file t'; pc := pc' |}.
      split; [by eapply lookup_set_thread_eq|done].
    + split.
      * unfold requests_of in *.
        by rewrite (step_events_other _ _ _ _ _ _ _ _ _ Hs) by done.
      * exists t'. split; [|done]. by apply lookup_set_thread_ne.
  - intros s1 tid1 t1 pc' _ (He1 & Hrq & t' & Ht' & Hf' & Hn') Ht1 Hs. simpl.
    split; [done|]. split; [done|].
    destruct (decide (tid1 = tid)) as [->|Hne].
    + simplify_eq. exists {| file := file t'; pc := pc' |}.
      split; [by eapply lookup_set_thread_eq|]. split; [done|]. simpl.
      destruct (pc t'); by simplify_eq/=.
    + exists t'. split; [|done]. by apply lookup_set_thread_ne.
  - intros s1 (He1 & Hrq & Ht') _. done.
  - intros s1 m (He1 & Hrq & Ht') _ _. done.
Qed.

Lemma no_request_after_cancellation_witness :
  let s := exec demo_digest demo_net (runs 0 11 ++ runs 1 2 ++ [KeyboardInterrupt])%list
             (batch_start [file_a; file_b] 2 ∅) in
  let s' := exec demo_digest demo_net (runs 0 5 ++ runs 1 5 ++ [Wait])%list s in
  pc <$> threads s = [ReadChunk [demo_chunk2]; CheckEvent]
  /\ pc <$> threads s' = [Exited Cancelled false; Exited Cancelled true]
  /\ requests_of 1 (trace (world s')) = [].
Proof.
  intros s s'. split; [vm_compute; reflexivity|]. split; [vm_compute; reflexivity|].
  destruct (no_request_after_cancellation demo_digest demo_net s s' 1
              {| file := file_b; pc := CheckEvent |}) as (_ & Hrq & _).
  - vm_compute; reflexivity.
  - vm_compute; reflexivity.
  - reflexivity.
  - apply exec_reachable.
  - rewrite Hrq. clear. vm_compute. reflexivity.
Defined.

(** ** hash_file *)

Lemma hash_file_loop_whole fuel rest h :
  (hash_file_reads (length rest) <= fuel)%nat ->
  hash_file_loop fuel rest h = Some (h ++ rest)%list.
Proof.
  unfold hash_file_reads. revert rest h.
  induction fuel as [|fuel IH]; intros rest h Hf; [lia|]. simpl.
  destruct (take 1024 rest) as [|b chunk] eqn:Ht; simpl.
  - destruct rest; [by rewrite app_nil_r|done].
  - rewrite <- Ht. rewrite IH.
    + by rewrite <- app_assoc, take_drop.
    + rewrite length_drop.
      assert (length rest <> 0)%nat by (destruct rest; simpl in *; [done|lia]).
      destruct (decide (length rest <= 1024)%nat) as [Hle|Hgt].
      * replace (length rest - 1024)%nat with 0%nat by lia.
        change ((0 + 1023) / 1024)%nat with 0%nat.
        assert (1 <= (length rest + 1023) / 1024)%nat; [|lia].
        apply Nat.div_le_lower_bound; lia.
      * assert (((length rest - 1024 + 1023) / 1024) + 1
                = (length rest + 1023) / 1024)%nat; [|lia].
        replace (length rest + 1023)%nat
          with ((length rest - 1024 + 1023) + 1 * 1024)%nat by lia.
        rewrite Nat.div_add by lia. lia.
Qed.

Lemma hash_file_loop_short fuel rest h :
  (fuel < hash_file_reads (length rest))%nat ->
  hash_file_loop fuel rest h = None.
Proof.
  unfold hash_file_reads. revert rest h.
  induction fuel as [|fuel IH]; intros rest h Hf; [done|]. simpl.
  destruct (take 1024 rest) as [|b chunk] eqn:Ht; simpl.
  - destruct rest; [simpl in Hf|done]. lia.
  - apply IH. rewrite length_drop.
    destruct (decide (length rest <= 1024)%nat) as [Hle|Hgt].
    + replace (length rest - 1024)%nat with 0%nat by lia.
      change ((0 + 1023) / 1024)%nat with 0%nat.
      assert ((length rest + 1023) / 1024 < 2)%nat; [|lia].
      apply Nat.Div0.div_lt_upper_bound; lia.
    + assert (((length rest - 1024 + 1023) / 1024) + 1
              = (length rest + 1023) / 1024)%nat; [|lia].
      replace (length rest + 1023)%nat
        with ((length rest - 1024 + 1023) + 1 * 1024)%nat by lia.
      rewrite Nat.div_add by lia. lia.
Qed.

(** X7. [hash_file] hashes the whole file, whatever its length: for a
    file of n bytes the loop ends after ceil(n / 1024) + 1 reads (one
    read for an empty file), not earlier, and the bytes passed to
    [h.update] are then the content of the file, in order. *)
Theorem hash_file_reads_whole_file fuel content :
  ((hash_file_reads (length content) <= fuel)%nat ->
   hash_file_loop fuel content [] = Some content)
  /\ ((fuel < hash_file_reads (length content))%nat ->
      hash_file_loop fuel content [] = None).
Proof.
  split; intros H.
  - by rewrite hash_file_loop_whole.
  - by apply hash_file_loop_short.
Qed.

Lemma hash_file_reads_whole_file_witness :
  let content := repeat "a"%byte 2500 in
  hash_file_reads (length content) = 4%nat
  /\ hash_file_loop 4 content [] = Some content
  /\ hash_file_loop 3 content [] = None.
Proof.
  intros content. split; [vm_compute; reflexivity|]. split.
  - apply hash_file_reads_whole_file. vm_compute. lia.
  - apply hash_file_reads_whole_file. vm_compute. lia.
Defined.

(** ** The file listing of download_folder *)

(** X8. The listing is the concatenation, in order, of the pages up to
    the first one whose [more_chunks] is not "yes"; what the API would
    serve after that page is not looked at. When every page served says
    "yes" the loop runs into the [KeyError]: the folder is reported as
    invalid and no thread is started, whatever files the pages
    listed. *)
Theorem listing_stops_at_last_page full last rest threads_num disk :
  Forall (fun p => more_chunks p = "yes") full ->
  (more_chunks last <> "yes" ->
   collect (full ++ last :: rest)
   = Some (concat (files <$> full) ++ files last)%list)
  /\ collect full = None
  /\ download_folder full threads_num disk = ApiError.
Proof.
  intros Hfull.
  assert (collect full = None) as Hnone.
  { induction Hfull as [|p full Hp _ IH]; [done|]. simpl.
    rewrite decide_True by done. by rewrite IH. }
  split; [|split; [done|]].
  - intros Hlast. clear Hnone. induction Hfull as [|p full Hp _ IH]; simpl.
    + by rewrite decide_False.
    + rewrite decide_True by done. rewrite IH. simpl. by rewrite <- app_assoc.
  - unfold download_folder. by rewrite Hnone.
Qed.

Lemma listing_stops_at_last_page_witness :
  let page1 := {| files := [file_a; file_b]; more_chunks := "yes" |} in
  let page2 := {| files := [file_c]; more_chunks := "no" |} in
  let page3 := {| files := [file_d]; more_chunks := "no" |} in
  collect [page1; page2; page3] = Some [file_a; file_b; file_c]
  /\ download_folder [page1] 20 ∅ = ApiError.
Proof.
  intros page1 page2 page3.
  destruct (listing_stops_at_last_page [page1] page2 [page3] 20 ∅)
    as (Hsome & _ & Herr).
  - repeat constructor.
  - split; [|exact Herr]. apply Hsome. discriminate.
Defined.

(** ** Every execution ends *)

Lemma step_steps_left hexdigest net tid f w pc w' pc' :
  step hexdigest net tid f w pc = Some (w', pc') ->
  (steps_left net f pc' < steps_left net f pc)%nat.
Proof.
  intros H. destruct pc; step_inv H; unfold resolved_chunks; simpl;
    repeat (case_match; simplify_eq/=); try lia.
Qed.

Lemma fault_steps_left net f pc pc' :
  fault pc = Some pc' -> (steps_left net f pc' < steps_left net f pc)%nat.
Proof. intros H. destruct pc; simplify_eq/=; lia. Qed.

Lemma thread_steps_insert net (l : list Thread) i t t' :
  l !! i = Some t ->
  (foldr (fun t acc => steps_left net (file t) (pc t) + acc) 0 (<[i:=t']> l)
   + steps_left net (file t) (pc t)
   = foldr (fun t acc => steps_left net (file t) (pc t) + acc) 0 l
     + steps_left net (file t') (pc t'))%nat.
Proof.
  revert i. induction l as [|x l IH]; intros [|i] H; simplify_eq/=; [lia|].
  specialize (IH _ H). lia.
Qed.

Lemma sys_step_actions_left hexdigest net a s s' :
  sys_step hexdigest net a s = Some s' ->
  (actions_left net s' < actions_left net s)%nat.
Proof.
  intros H. unfold actions_left. destruct a as [tid|tid| |]; simpl in H.
  - destruct (threads s !! tid) as [t|] eqn:Ht; simplify_eq/=.
    destruct (step hexdigest net tid (file t) (world s) (pc t))
      as [[w' pc']|] eqn:Hs; simplify_eq/=.
    pose proof (step_steps_left _ _ _ _ _ _ _ _ Hs).
    pose proof (thread_steps_insert net _ _ _ {| file := file t; pc := pc' |} Ht).
    simpl in *. lia.
  - destruct (threads s !! tid) as [t|] eqn:Ht; simplify_eq/=.
    destruct (fault (pc t)) as [pc'|] eqn:Hs; simplify_eq/=.
    pose proof (fault_steps_left net (file t) _ _ Hs).
    pose proof (thread_steps_insert net _ _ _ {| file := file t; pc := pc' |} Ht).
    simpl in *. lia.
  - destruct (main s); simplify_eq/=. lia.
  - destruct (forallb exited (threads s)); [|done].
    destruct (main s); simplify_eq/=; lia.
Qed.

(** X9. The threads of a batch execute a bounded number of statements,
    however they are interleaved: a schedule that can be executed
    action by action from the start of a batch (a statement of a
    thread, an exception in a thread, Ctrl-C, the end of the wait of
    the main thread) is no longer than four actions for every chunk
    served plus fifteen for every file, and two for the main thread.
    The iterations of the polling loop are not actions: the bound says
    nothing on how long the main thread waits, which is for ever when
    a thread stays blocked in [acquire]. *)
Theorem batch_schedules_are_bounded hexdigest net data threads_num disk schedule s :
  run hexdigest net schedule (batch_start data threads_num disk) = Some s ->
  (length schedule
   <= foldr (fun f acc =>
               4 * resolved_chunks net (net (download_link f)) + 15 + acc) 0 data
      + 2)%nat.
Proof.
  intros H.
  assert (forall sched s0 s1,
             run hexdigest net sched s0 = Some s1 ->
             (length sched + actions_left net s1 <= actions_left net s0)%nat) as Hrun.
  { clear. induction sched as [|a sched IH]; intros s0 s1 H; simplify_eq/=; [lia|].
    destruct (sys_step hexdigest net a s0) as [s2|] eqn:E; simplify_eq/=.
    apply sys_step_actions_left in E. apply IH in H. lia. }
  apply Hrun in H. clear Hrun. revert H.
  assert (actions_left net (batch_start data threads_num disk)
          = foldr (fun f acc =>
                     4 * resolved_chunks net (net (download_link f)) + 15 + acc) 0 data
            + 2)%nat as Hstart.
  { unfold actions_left. cbn [batch_start threads main main_left]. f_equal.
    induction data as [|f data IH]; [done|].
    cbn [fmap list_fmap foldr file pc steps_left]. f_equal. exact IH. }
  lia.
Qed.

Lemma batch_schedules_are_bounded_witness :
  (length complete_then_cancel = 37)%nat
  /\ (length complete_then_cancel <= 4 * 2 + 15 + (4 * 2 + 15 + 0) + 2)%nat.
Proof.
  split; [reflexivity|].
  apply (batch_schedules_are_bounded demo_digest demo_net [file_a; file_b] 2 ∅
           complete_then_cancel
           (exec demo_digest demo_net complete_then_cancel
              (batch_start [file_a; file_b] 2 ∅))).
  vm_compute. reflexivity.
Defined.

Lemma step_none hexdigest net tid f w pc :
  step hexdigest net tid f w pc = None ->
  (exists o raised, pc = Exited o raised)
  \/ (pc = Acquire /\ exists sem, limiter w = Some sem /\ value sem = 0).
Proof.
  intros H. destruct pc; step_inv H; eauto.
Qed.

Lemma step_not_acquire hexdigest net tid f w pc w' pc' :
  step hexdigest net tid f w pc = Some (w', pc') -> pc' <> Acquire.
Proof. intros H. destruct pc; step_inv H; done. Qed.

Lemma run_thread_ends hexdigest net fuel tid f w pc :
  (steps_left net f pc <= fuel)%nat ->
  pc <> Acquire ->
  exists w' o raised,
    run_thread hexdigest net fuel tid f w pc = (w', Exited o raised).
Proof.
  revert w pc. induction fuel as [|fuel IH]; intros w pc Hf Hpc.
  - destruct pc; simpl in Hf; try lia; try (case_match; lia). by eauto.
  - simpl. destruct (step hexdigest net tid f w pc) as [[w' pc']|] eqn:Hs.
    + apply IH.
      * apply step_steps_left in Hs. lia.
      * by eapply step_not_acquire.
    + destruct (step_none _ _ _ _ _ _ Hs) as [(o & r & ->)|[-> _]]; [eauto|done].
Qed.

(** X10. A call of [download_file] that is not kept waiting by the
    semaphore returns or raises: it comes to its end within four
    statements for every chunk served plus fifteen, whatever the server
    answers and whatever is in the directory. *)
Theorem download_file_returns hexdigest net fuel f w :
  (forall sem, limiter w = Some sem -> value sem <> 0) ->
  (4 * resolved_chunks net (net (download_link f)) + 15 <= fuel)%nat ->
  exists w' o raised, download_file hexdigest net fuel f w = (w', Exited o raised).
Proof.
  intros Hsem Hf. unfold download_file.
  destruct fuel as [|fuel]; [lia|].
  destruct (step hexdigest net 0 f w Acquire) as [[w' pc']|] eqn:Hs.
  - rewrite (run_thread_S _ _ _ _ _ _ _ _ _ Hs). apply run_thread_ends.
    + apply step_steps_left in Hs. simpl in Hs. lia.
    + by eapply step_not_acquire.
  - destruct (step_none _ _ _ _ _ _ Hs) as [(o & r & ?)|[_ (sem & Hl & Hv)]]; [done|].
    by destruct (Hsem _ Hl).
Qed.

Lemma download_file_returns_witness :
  exists w' o raised,
    download_file demo_digest demo_net 23 file_a
      (world (batch_start [file_a] 1 ∅)) = (w', Exited o raised).
Proof.
  apply download_file_returns.
  - intros sem Hsem. vm_compute in Hsem. injection Hsem as <-. vm_compute. discriminate.
  - vm_compute. lia.
Defined.

(** ** What download_file leaves in the directory *)

Section Runs.
Variable hexdigest : list byte -> string.
Variable net : string -> Response.

Lemma run_exact_S n tid f w pc w1 pc1 :
  step hexdigest net tid f w pc = Some (w1, pc1) ->
  run_exact hexdigest net (S n) tid f w pc = run_exact hexdigest net n tid f w1 pc1.
Proof. intros H. simpl. by rewrite H. Qed.

Lemma run_exact_app n m tid f w pc w1 pc1 :
  run_exact hexdigest net n tid f w pc = Some (w1, pc1) ->
  run_exact hexdigest net (n + m) tid f w pc = run_exact hexdigest net m tid f w1 pc1.
Proof.
  revert w pc. induction n as [|n IH]; intros w pc H; simplify_eq/=; [done|].
  destruct (step hexdigest net tid f w pc) as [[w2 pc2]|]; [|done]. by apply IH.
Qed.

Lemma run_exact_thread n fuel tid f w pc w' o raised :
  run_exact hexdigest net n tid f w pc = Some (w', Exited o raised) ->
  (n <= fuel)%nat ->
  run_thread hexdigest net fuel tid f w pc = (w', Exited o raised).
Proof.
  revert fuel w pc. induction n as [|n IH]; intros fuel w pc H Hle; simplify_eq/=.
  - by destruct fuel.
  - destruct fuel as [|fuel]; [lia|]. simpl.
    destruct (step hexdigest net tid f w pc) as [[w2 pc2]|]; [|done].
    apply IH; [done|lia].
Qed.

Lemma update_bytes_add p a b :
  update (update p a false false false) b false false false
  = update p (a + b) false false false.
Proof. unfold update. simpl. f_equal. lia. Qed.

Lemma stream_loop tid f rest w acc p :
  Forall (fun chunk => chunk <> []) rest ->
  event_is_set w = false ->
  fs w !! local_name f = Some {| content := acc; status := Partial |} ->
  progress w = Some p ->
  exists w',
    run_exact hexdigest net (4 * length rest) tid f w (ReadChunk rest)
    = Some (w', ReadChunk [])
    /\ fs w' = <[local_name f := {| content := (acc ++ concat rest)%list;
                                   status := Partial |}]> (fs w)
    /\ progress w' = Some (update p (chunks_length rest) false false false)
    /\ limiter w' = limiter w /\ event w' = event w /\ trace w' = trace w.
Proof.
  intros Hne. revert w acc p.
  induction Hne as [|chunk rest Hc _ IH]; intros w acc p He Hlf Hp.
  - exists w. simpl. rewrite app_nil_r. split; [done|]. split.
    { by rewrite insert_id. }
    split; [|done]. rewrite Hp. f_equal. destruct p. unfold update. simpl.
    f_equal. lia.
  - replace (4 * length (chunk :: rest))%nat
      with (S (S (S (S (4 * length rest)))))%nat by (simpl; lia).
    rewrite (run_exact_S _ _ _ _ _ w (CheckCancel chunk rest)) by done.
    rewrite (run_exact_S _ _ _ _ _ w (WriteChunk chunk rest)).
    2:{ unfold step. rewrite He. by destruct chunk. }
    rewrite (run_exact_S _ _ _ _ _ (write (local_name f) chunk w)
               (ChunkUpdate chunk rest)) by done.
    set (w1 := write (local_name f) chunk w).
    assert (fs w1 = <[local_name f := {| content := (acc ++ chunk)%list;
                                         status := Partial |}]> (fs w)) as Hfs1.
    { unfold w1, write. by rewrite Hlf. }
    assert (progress w1 = Some p /\ limiter w1 = limiter w /\ event w1 = event w
            /\ trace w1 = trace w) as (Hp1 & Hl1 & He1 & Ht1).
    { unfold w1, write. by rewrite Hlf. }
    set (w2 := set_progress
                 (Some (update p (Z.of_nat (length chunk)) false false false)) w1).
    rewrite (run_exact_S _ _ _ _ _ w2 (ReadChunk rest)).
    2:{ unfold step, progress_update. by rewrite Hp1. }
    destruct (IH w2 (acc ++ chunk)%list
                (update p (Z.of_nat (length chunk)) false false false))
      as (w' & Hrun & Hfs' & Hp' & Hl' & He' & Ht').
    + unfold event_is_set in *. simpl. by rewrite He1.
    + simpl. rewrite Hfs1. by rewrite lookup_insert_eq.
    + done.
    + exists w'. split; [done|]. simpl in *.
      rewrite Hfs', Hfs1, insert_insert_eq, <- app_assoc.
      split; [done|]. rewrite Hp', update_bytes_add.
      split; [done|]. repeat split; congruence.
Qed.

Lemma resolve_phase f w :
  limiter w = None ->
  event_is_set w = false ->
  is_directory (local_name f) = false ->
  (forall lf, fs w !! local_name f = Some lf ->
     hexdigest (content lf) <> expected_hash f) ->
  exists k w1,
    (k <= 6)%nat
    /\ run_exact hexdigest net k 0 f w Acquire
       = Some (w1, match resolved net f with
                   | Some response => CheckStatus response
                   | None => MarkFailed ExtractionFailure
                   end)
    /\ fs w1 = delete (local_name f) (fs w)
    /\ progress w1 = progress w /\ limiter w1 = None /\ event w1 = event w
    /\ requests (trace w1) <> [].
Proof.
  intros Hl He Hdir Hstale.
  assert (exists k w1, (k <= 3)%nat
            /\ run_exact hexdigest net k 0 f w Acquire = Some (w1, CheckEvent)
            /\ fs w1 = delete (local_name f) (fs w)
            /\ progress w1 = progress w /\ limiter w1 = None /\ event w1 = event w)
    as (k & w1 & Hk & Hrun & Hfs & Hp & Hl1 & He1).
  { destruct (fs w !! local_name f) as [lf|] eqn:Hlf.
    - exists 3%nat, (set_fs (delete (local_name f) (fs w)) w).
      split; [lia|]. split; [|done].
      rewrite (run_exact_S _ _ _ _ _ w Verify) by (unfold step; by rewrite Hl).
      rewrite (run_exact_S _ _ _ _ _ w RemoveStale).
      2:{ unfold step, hash_file. rewrite Hlf. simpl.
          rewrite decide_False; [done|]. by apply Hstale. }
      rewrite (run_exact_S _ _ _ _ _ (set_fs (delete (local_name f) (fs w)) w)
                 CheckEvent); [done|].
      unfold step, remove. by rewrite Hlf.
    - exists 2%nat, w. split; [lia|]. split; [|by rewrite delete_id].
      rewrite (run_exact_S _ _ _ _ _ w Verify) by (unfold step; by rewrite Hl).
      rewrite (run_exact_S _ _ _ _ _ w CheckEvent); [done|].
      unfold step, hash_file. by rewrite Hlf, Hdir. }
  assert (event_is_set w1 = false) as He1'.
  { unfold event_is_set in *. by rewrite He1. }
  set (w2 := log 0 (EvRequest (download_link f)) w1).
  assert (run_exact hexdigest net (k + 2) 0 f w Acquire
          = Some (w2, GotResponse (net (download_link f)))) as Hrun2.
  { rewrite (run_exact_app _ _ _ _ _ _ _ _ Hrun).
    rewrite (run_exact_S _ _ _ _ _ w1 Request) by (unfold step; by rewrite He1').
    by rewrite (run_exact_S _ _ _ _ _ w2 (GotResponse (net (download_link f)))). }
  unfold resolved.
  destruct (decide (content_encoding (net (download_link f)) = Some "gzip"))
    as [Hgz|Hgz].
  - destruct (page (net (download_link f))) as [|[[|c url]|]] eqn:Hpage.
    + exists (k + 3)%nat, w2. split; [lia|]. split; [|done].
      replace (k + 3)%nat with (k + 2 + 1)%nat by lia.
      rewrite (run_exact_app _ _ _ _ _ _ _ _ Hrun2).
      rewrite (run_exact_S _ _ _ _ _ w2 (MarkFailed ExtractionFailure)); [done|].
      unfold step. rewrite decide_True by done. by rewrite Hpage.
    + exists (k + 3)%nat, w2. split; [lia|]. split; [|done].
      replace (k + 3)%nat with (k + 2 + 1)%nat by lia.
      rewrite (run_exact_app _ _ _ _ _ _ _ _ Hrun2).
      rewrite (run_exact_S _ _ _ _ _ w2 (MarkFailed ExtractionFailure)); [done|].
      unfold step. rewrite decide_True by done. by rewrite Hpage.
    + exists (k + 3)%nat, (log 0 (EvRequest (String c url)) w2).
      split; [lia|]. split; [|done].
      replace (k + 3)%nat with (k + 2 + 1)%nat by lia.
      rewrite (run_exact_app _ _ _ _ _ _ _ _ Hrun2).
      rewrite (run_exact_S _ _ _ _ _ (log 0 (EvRequest (String c url)) w2)
                 (CheckStatus (net (String c url)))); [done|].
      unfold step. rewrite decide_True by done. by rewrite Hpage.
    + exists (k + 3)%nat, w2. split; [lia|]. split; [|done].
      replace (k + 3)%nat with (k + 2 + 1)%nat by lia.
      rewrite (run_exact_app _ _ _ _ _ _ _ _ Hrun2).
      rewrite (run_exact_S _ _ _ _ _ w2 (MarkFailed ExtractionFailure)); [done|].
      unfold step. rewrite decide_True by done. by rewrite Hpage.
  - exists (k + 3)%nat, w2. split; [lia|]. split; [|done].
    replace (k + 3)%nat with (k + 2 + 1)%nat by lia.
    rewrite (run_exact_app _ _ _ _ _ _ _ _ Hrun2).
    rewrite (run_exact_S _ _ _ _ _ w2 (CheckStatus (net (download_link f)))); [done|].
    unfold step. by rewrite decide_False by done.
Qed.

Lemma completes_from_status f w r p :
  openable (local_name f) = true ->
  limiter w = None -> event_is_set w = false -> progress w = Some p ->
  is_error_status (http_status r) = false ->
  Forall (fun chunk => chunk <> []) (body r) ->
  exists w',
    run_exact hexdigest net (4 * length (body r) + 6) 0 f w (CheckStatus r)
    = Some (w', Exited Completed false)
    /\ fs w' = <[local_name f := {| content := concat (body r); status := Whole |}]>
                 (fs w)
    /\ progress w'
       = Some (update (update p (chunks_length (body r)) false false false)
                      0 true false false).
Proof.
  intros Hname Hl He Hp Hst Hne.
  replace (4 * length (body r) + 6)%nat
    with (2 + (4 * length (body r) + 4))%nat by lia.
  set (w1 := open_wb (local_name f) w).
  erewrite (run_exact_app 2 _ _ _ _ _ w1 (ReadChunk (body r))).
  2:{ rewrite (run_exact_S _ _ _ _ _ w (OpenFile r)) by (unfold step; by rewrite Hst).
      rewrite (run_exact_S _ _ _ _ _ w1 (ReadChunk (body r))); [done|].
      unfold step. by rewrite Hname. }
  destruct (stream_loop 0 f (body r) w1 [] p Hne) as (w2 & Hrun & Hfs & Hp2 & Hl2 & He2 & _).
  { done. }
  { unfold w1, open_wb. simpl. by rewrite lookup_insert_eq. }
  { done. }
  rewrite (run_exact_app _ _ _ _ _ _ _ _ Hrun).
  assert (event_is_set w2 = false) as He2'.
  { unfold event_is_set in *. by rewrite He2. }
  assert (fs w2 !! local_name f
          = Some {| content := concat (body r); status := Partial |}) as Hlf2.
  { rewrite Hfs. by rewrite lookup_insert_eq. }
  rewrite (run_exact_S _ _ _ _ _ w2 (CheckCancel [] [])) by done.
  set (w3 := close_whole (local_name f) w2).
  rewrite (run_exact_S _ _ _ _ _ w3 MarkCompleted)
    by (unfold step; by rewrite He2').
  assert (progress w3 = progress w2 /\ limiter w3 = limiter w2) as [Hp3 Hl3].
  { unfold w3, close_whole. by rewrite Hlf2. }
  set (w4 := set_progress
               (Some (update (update p (chunks_length (body r)) false false false)
                             0 true false false)) w3).
  rewrite (run_exact_S _ _ _ _ _ w4 (Finally Completed)).
  2:{ unfold step, progress_update. by rewrite Hp3, Hp2. }
  rewrite (run_exact_S _ _ _ _ _ w4 (Exited Completed false)).
  2:{ assert (limiter w4 = None) as Hl4.
      { unfold w4. simpl. rewrite Hl3, Hl2. unfold w1. simpl. done. }
      unfold step, limiter_release. by rewrite Hl4. }
  exists w4. split; [done|]. split; [|done].
  simpl. unfold w3, close_whole. rewrite Hlf2. simpl. rewrite Hfs.
  unfold w1, open_wb. simpl. by rewrite !insert_insert_eq.
Qed.

Lemma fails_from_rejection f w r p :
  limiter w = None -> progress w = Some p ->
  exists w',
    run_exact hexdigest net 3 0 f w (MarkFailed r)
    = Some (w', Exited (Failed (Rejected r)) false)
    /\ fs w' = fs w
    /\ progress w' = Some (update p 0 false true false).
Proof.
  intros Hl Hp.
  set (w1 := set_progress (Some (update p 0 false true false)) w).
  rewrite (run_exact_S _ _ _ _ _ w1 (FailRelease r))
    by (unfold step, progress_update; by rewrite Hp).
  rewrite (run_exact_S _ _ _ _ _ w1 (Finally (Failed (Rejected r))))
    by (unfold step, limiter_release; simpl; by rewrite Hl).
  rewrite (run_exact_S _ _ _ _ _ w1 (Exited (Failed (Rejected r)) false))
    by (unfold step, limiter_release; simpl; by rewrite Hl).
  by exists w1.
Qed.

End Runs.

(** X11. [get_file] for a file whose normalised name can be opened (it
    is not empty, not "." or "..", and no longer than the file system
    allows), when no copy with the expected
    hash is in the directory, the server answers (directly, or behind
    the link of the interstitial page) with a status outside 400..599
    and no statement raises of its own accord: the file ends up under
    its normalised name with exactly the bytes served, a stale copy
    being replaced; nothing else in the directory changes; the download
    counts as one completed file and the bytes served as downloaded. *)
Theorem get_file_writes_the_served_body hexdigest net fuel f disk r :
  openable (local_name f) = true ->
  is_directory (local_name f) = false ->
  (forall c, disk !! local_name f = Some c -> hexdigest c <> expected_hash f) ->
  resolved net f = Some r ->
  is_error_status (http_status r) = false ->
  Forall (fun chunk => chunk <> []) (body r) ->
  (4 * length (body r) + 12 <= fuel)%nat ->
  exists w',
    get_file hexdigest net fuel f disk
    = (w', Exited Completed false,
       Some {| total_line := 1; failed_line := None; skipped_line := None |})
    /\ fs w' = <[local_name f := {| content := concat (body r); status := Whole |}]>
                 ((fun c => {| content := c; status := Whole |}) <$> disk)
    /\ progress w'
       = Some {| total_files := 1; total_size := Z.of_N (file_size f);
                 completed_files := 1;
                 downloaded_bytes := chunks_length (body r);
                 failed_files := 0; skipped_files := 0 |}.
Proof.
  intros Hname Hdir Hstale Hres Hst Hne Hfuel. unfold get_file, download_file.
  set (w0 := {| limiter := None; event := None;
                progress := Some (ProgressTracker_init 1 (Z.of_N (file_size f)));
                fs := (fun c => {| content := c; status := Whole |}) <$> disk;
                trace := [] |}).
  destruct (resolve_phase hexdigest net f w0) as (k & w1 & Hk & Hrun & Hfs & Hp & Hl & He & _).
  { done. }
  { done. }
  { done. }
  { intros lf Hlf. simpl in Hlf. rewrite lookup_fmap in Hlf.
    destruct (disk !! local_name f) as [c|] eqn:Hc; simplify_eq/=. by apply Hstale. }
  rewrite Hres in Hrun.
  destruct (completes_from_status hexdigest net f w1 r
              (ProgressTracker_init 1 (Z.of_N (file_size f))))
    as (w' & Hrun' & Hfs' & Hp'); try done.
  { unfold event_is_set. by rewrite He. }
  assert (run_exact hexdigest net (k + (4 * length (body r) + 6)) 0 f w0 Acquire
          = Some (w', Exited Completed false)) as Hall.
  { by rewrite (run_exact_app _ _ _ _ _ _ _ _ _ _ Hrun). }
  rewrite (run_exact_thread _ _ _ _ _ _ _ _ _ _ _ Hall) by lia.
  exists w'. rewrite Hp'. split; [by unfold finish|]. split.
  - rewrite Hfs', Hfs. simpl. by rewrite insert_delete_eq.
  - unfold update, ProgressTracker_init. simpl. do 2 f_equal. lia.
Qed.

Lemma get_file_writes_the_served_body_witness :
  exists w',
    get_file demo_digest demo_net 20 file_a {[ "a-.bin" := demo_chunk1 ]}
    = (w', Exited Completed false,
       Some {| total_line := 1; failed_line := None; skipped_line := None |})
    /\ fs w' = <[local_name file_a :=
                  {| content := concat (body demo_ok); status := Whole |}]>
                 ((fun c => {| content := c; status := Whole |})
                  <$> {[ "a-.bin" := demo_chunk1 ]})
    /\ progress w'
       = Some {| total_files := 1; total_size := Z.of_N (file_size file_a);
                 completed_files := 1;
                 downloaded_bytes := chunks_length (body demo_ok);
                 failed_files := 0; skipped_files := 0 |}.
Proof.
  apply (get_file_writes_the_served_body demo_digest demo_net 20 file_a
           {[ "a-.bin" := demo_chunk1 ]} demo_ok).
  - vm_compute. reflexivity.
  - vm_compute. reflexivity.
  - intros c Hc. vm_compute in Hc. injection Hc as <-. vm_compute. discriminate.
  - vm_compute. reflexivity.
  - vm_compute. reflexivity.
  - repeat constructor; vm_compute; discriminate.
  - vm_compute. lia.
Defined.

(** X12. [get_file] for a file whose normalised name is not "." or
    "..", when no copy with the expected hash is in the directory, the
    request is turned down (no usable link on the interstitial page, or
    a status in 400..599) and no statement raises of its own accord:
    the call returns without raising and reports one failed file, the
    directory has no file under the normalised name any more (a stale
    copy was deleted before the request and nothing is written), and
    every other file is as it was. *)
Theorem get_file_rejected_after_removing_stale hexdigest net fuel f disk :
  is_directory (local_name f) = false ->
  (forall c, disk !! local_name f = Some c -> hexdigest c <> expected_hash f) ->
  match resolved net f with
  | Some r => is_error_status (http_status r) = true
  | None => True
  end ->
  (10 <= fuel)%nat ->
  exists w' r,
    get_file hexdigest net fuel f disk
    = (w', Exited (Failed (Rejected r)) false,
       Some {| total_line := 0; failed_line := Some 1; skipped_line := None |})
    /\ r = match resolved net f with
           | Some _ => RemoteStatusError
           | None => ExtractionFailure
           end
    /\ fs w' = (fun c => {| content := c; status := Whole |})
               <$> delete (local_name f) disk.
Proof.
  intros Hdir Hstale Hres Hfuel. unfold get_file, download_file.
  set (w0 := {| limiter := None; event := None;
                progress := Some (ProgressTracker_init 1 (Z.of_N (file_size f)));
                fs := (fun c => {| content := c; status := Whole |}) <$> disk;
                trace := [] |}).
  destruct (resolve_phase hexdigest net f w0) as (k & w1 & Hk & Hrun & Hfs & Hp & Hl & He & _).
  { done. }
  { done. }
  { done. }
  { intros lf Hlf. simpl in Hlf. rewrite lookup_fmap in Hlf.
    destruct (disk !! local_name f) as [c|] eqn:Hc; simplify_eq/=. by apply Hstale. }
  set (r := match resolved net f with
            | Some _ => RemoteStatusError
            | None => ExtractionFailure
            end).
  assert (exists j, (j <= 7)%nat
          /\ run_exact hexdigest net j 0 f w0 Acquire = Some (w1, MarkFailed r))
    as (j & Hj & Hrun1).
  { unfold r. destruct (resolved net f) as [response|].
    - exists (k + 1)%nat. split; [lia|].
      rewrite (run_exact_app _ _ _ _ _ _ _ _ _ _ Hrun). simpl. by rewrite Hres.
    - exists k. split; [lia|done]. }
  destruct (fails_from_rejection hexdigest net f w1 r
              (ProgressTracker_init 1 (Z.of_N (file_size f))))
    as (w' & Hrun' & Hfs' & Hp'); try done.
  assert (run_exact hexdigest net (j + 3) 0 f w0 Acquire
          = Some (w', Exited (Failed (Rejected r)) false)) as Hall.
  { by rewrite (run_exact_app _ _ _ _ _ _ _ _ _ _ Hrun1). }
  rewrite (run_exact_thread _ _ _ _ _ _ _ _ _ _ _ Hall) by lia.
  exists w', r. rewrite Hp'. split; [by unfold finish|]. split; [done|].
  rewrite Hfs', Hfs. simpl. by rewrite fmap_delete.
Qed.

Lemma get_file_rejected_after_removing_stale_witness :
  exists w' r,
    get_file demo_digest demo_net 10 file_gone {[ "gone.bin" := demo_chunk1 ]}
    = (w', Exited (Failed (Rejected r)) false,
       Some {| total_line := 0; failed_line := Some 1; skipped_line := None |})
    /\ r = match resolved demo_net file_gone with
           | Some _ => RemoteStatusError
           | None => ExtractionFailure
           end
    /\ fs w' = (fun c => {| content := c; status := Whole |})
               <$> delete (local_name file_gone) {[ "gone.bin" := demo_chunk1 ]}.
Proof.
  apply (get_file_rejected_after_removing_stale demo_digest demo_net 10 file_gone
           {[ "gone.bin" := demo_chunk1 ]}).
  - vm_compute. reflexivity.
  - intros c Hc. vm_compute in Hc. injection Hc as <-. vm_compute. discriminate.
  - vm_compute. reflexivity.
  - lia.
Defined.
(** X19. [get_file] for a file whose normalised name cannot be that of
    a file. When the name is "." or "..", [path.exists] is true and the
    [open] of [hash_file] raises before the [try] block: the exception
    leaves [get_file] after two statements, nothing is requested,
    counted or reported. When the name is empty, or one the file system
    does not take, and the server accepts the request, it is the [open]
    of line 484 that raises: the handler counts one failed file, the
    call returns, and nothing is written. *)
Theorem get_file_fails_on_unusable_names hexdigest net fuel f disk :
  disk !! local_name f = None ->
  (is_directory (local_name f) = true -> (2 <= fuel)%nat ->
   exists w',
     get_file hexdigest net fuel f disk = (w', Exited Crashed true, None)
     /\ trace w' = []
     /\ progress w' = Some (ProgressTracker_init 1 (Z.of_N (file_size f)))
     /\ fs w' = (fun c => {| content := c; status := Whole |}) <$> disk)
  /\ (forall r,
        openable (local_name f) = false -> resolved net f = Some r ->
        is_error_status (http_status r) = false -> (11 <= fuel)%nat ->
        exists w',
          get_file hexdigest net fuel f disk
          = (w', Exited (Failed (Raised TransferIOError)) false,
             Some {| total_line := 0; failed_line := Some 1;
                     skipped_line := None |})
          /\ requests (trace w') <> []
          /\ fs w' = (fun c => {| content := c; status := Whole |}) <$> disk).
Proof.
  intros Hnone. unfold get_file, download_file.
  set (w0 := {| limiter := None; event := None;
                progress := Some (ProgressTracker_init 1 (Z.of_N (file_size f)));
                fs := (fun c => {| content := c; status := Whole |}) <$> disk;
                trace := [] |}).
  assert (fs w0 !! local_name f = None) as Hlf.
  { simpl. by rewrite lookup_fmap, Hnone. }
  split.
  - intros Hdir Hfuel. exists w0.
    assert (run_exact hexdigest net 2 0 f w0 Acquire = Some (w0, Exited Crashed true))
      as Hall.
    { rewrite (run_exact_S _ _ _ _ _ _ _ w0 Verify) by done.
      rewrite (run_exact_S _ _ _ _ _ _ _ w0 (Exited Crashed true)); [done|].
      unfold step, hash_file. by rewrite Hlf, Hdir. }
    by rewrite (run_exact_thread _ _ _ _ _ _ _ _ _ _ _ Hall) by lia.
  - intros r Hname Hres Hst Hfuel.
    destruct (resolve_phase hexdigest net f w0)
      as (k & w1 & Hk & Hrun & Hfs & Hp & Hl & He & Hrq).
    { done. }
    { done. }
    { unfold is_directory. apply bool_decide_eq_false. intros [Hn|Hn];
        rewrite Hn in Hname; vm_compute in Hname; discriminate. }
    { intros lf Hlf'. congruence. }
    rewrite Hres in Hrun.
    assert (fs w1 !! local_name f = None) as Hlf1.
    { rewrite Hfs. by rewrite lookup_delete_eq. }
    set (w2 := set_progress
                 (Some (update (ProgressTracker_init 1 (Z.of_N (file_size f)))
                               0 false true false)) w1).
    assert (run_exact hexdigest net (k + 5) 0 f w0 Acquire
            = Some (w2, Exited (Failed (Raised TransferIOError)) false)) as Hall.
    { rewrite (run_exact_app _ _ _ _ _ _ _ _ _ _ Hrun).
      rewrite (run_exact_S _ _ _ _ _ _ _ w1 (OpenFile r))
        by (unfold step; by rewrite Hst).
      rewrite (run_exact_S _ _ _ _ _ _ _ w1 (Handler TransferIOError))
        by (unfold step; by rewrite Hname).
      rewrite (run_exact_S _ _ _ _ _ _ _ w1 (HandlerUpdate TransferIOError))
        by (unfold step, remove; by rewrite Hlf1).
      rewrite (run_exact_S _ _ _ _ _ _ _ w2
                 (Finally (Failed (Raised TransferIOError))))
        by (unfold step, progress_update; by rewrite Hp).
      rewrite (run_exact_S _ _ _ _ _ _ _ w2
                 (Exited (Failed (Raised TransferIOError)) false)); [done|].
      unfold step, limiter_release. simpl. by rewrite Hl. }
    rewrite (run_exact_thread _ _ _ _ _ _ _ _ _ _ _ Hall) by lia.
    exists w2. split; [done|]. split.
    + done.
    + simpl. rewrite Hfs. simpl. rewrite delete_id; [done|].
      by rewrite lookup_fmap, Hnone.
Qed.

Lemma get_file_fails_on_unusable_names_witness :
  (exists w',
     get_file demo_digest demo_net 2 file_dot disk_with_a
     = (w', Exited Crashed true, None)
     /\ trace w' = []
     /\ progress w' = Some (ProgressTracker_init 1 (Z.of_N (file_size file_dot)))
     /\ fs w' = (fun c => {| content := c; status := Whole |}) <$> disk_with_a)
  /\ snd (fst (get_file demo_digest demo_net 11 (demo_file "" "https://dl/e")
                 disk_with_a))
     = Exited (Failed (Raised TransferIOError)) false.
Proof.
  split; [|vm_compute; reflexivity].
  destruct (get_file_fails_on_unusable_names demo_digest demo_net 2 file_dot
              disk_with_a) as [Hdir _].
  - vm_compute. reflexivity.
  - apply Hdir; [vm_compute; reflexivity|lia].
Defined.

(** ** What a completed download leaves in the directory *)

Lemma transfer_ok_other net disk disk' t :
  disk' !! local_name (file t) = disk !! local_name (file t) ->
  transfer_ok net disk t -> transfer_ok net disk' t.
Proof.
  intros Heq. unfold transfer_ok, written, stored.
  destruct (pc t); try done; try case_match; rewrite ?Heq; done.
Qed.

Lemma resolved_body net f response :
  (forall url, Forall (fun chunk => chunk <> []) (body (net url))) ->
  resolved net f = Some response ->
  Forall (fun chunk => chunk <> []) (body response).
Proof.
  intros Hbody H. unfold resolved in H.
  repeat (case_match; simplify_eq/=); apply Hbody.
Qed.

Lemma is_empty_nil chunk : is_empty chunk = true -> chunk = [].
Proof. by destruct chunk. Qed.

Lemma step_transfer_ok hexdigest net tid f w pc w' pc' :
  (forall url, Forall (fun chunk => chunk <> []) (body (net url))) ->
  step hexdigest net tid f w pc = Some (w', pc') ->
  transfer_ok net (fs w) {| file := f; pc := pc |} ->
  transfer_ok net (fs w') {| file := f; pc := pc' |}.
Proof.
  intros Hbody H Hok. unfold transfer_ok in *. simpl in *.
  destruct pc; step_inv H; try done.
  - unfold resolved. by rewrite H0, H1.
  - unfold resolved. by rewrite H0.
  - destruct Hok as [Hres Hst]. exists response, {| content := []; status := Partial |}.
    rewrite lookup_insert_eq. repeat split; try done.
    by eapply resolved_body.
  - destruct Hok as (r & lf & _ & _ & _ & _ & Hne).
    apply is_empty_nil in H. inversion Hne; simplify_eq.
  - destruct Hok as [(r & lf & Hres & Hst & Hlf & Hc & _) ->].
    exists r. rewrite lookup_insert_eq. repeat split; try done.
    simplify_eq. simpl in Hc. rewrite app_nil_r in Hc. by rewrite Hc.
  - destruct Hok as [(r & lf & _ & _ & Hlf & _) _]. congruence.
  - destruct Hok as (r & lf & Hres & Hst & Hlf & Hc & Hne).
    exists r, {| content := (content l ++ chunk)%list; status := status l |}.
    rewrite lookup_insert_eq. repeat split; try done.
    + simplify_eq. simpl. simpl in Hc. by rewrite <- app_assoc.
    + by inversion Hne.
  - destruct Hok as (r & lf & _ & _ & Hlf & _). congruence.
Qed.

Lemma transfer_ok_reachable hexdigest net data threads_num disk s :
  NoDup (local_name <$> data) ->
  (forall url, Forall (fun chunk => chunk <> []) (body (net url))) ->
  reachable hexdigest net (batch_start data threads_num disk) s ->
  forall tid t, threads s !! tid = Some t -> transfer_ok net (fs (world s)) t.
Proof.
  intros Hnd Hbody Hr. pattern s. eapply batch_invariant; [exact Hr|..].
  - intros tid t Ht. simpl in Ht. rewrite list_lookup_fmap in Ht.
    destruct (data !! tid); by simplify_eq/=.
  - intros s1 tid t w' pc' Hr1 IH Ht Hs tid' t' Ht'. simpl in Ht'.
    destruct (lookup_set_thread _ _ _ _ _ _ Ht Ht') as [[-> ->]|[Hne Hold]]; simpl.
    + apply (step_transfer_ok _ _ _ _ _ _ _ _ Hbody Hs).
      specialize (IH _ _ Ht). by destruct t.
    + eapply transfer_ok_other; [|exact (IH _ _ Hold)].
      apply (step_fs_other _ _ _ _ _ _ _ _ _ Hs).
      destruct (shape_reachable hexdigest net data threads_num disk s1 Hr1)
        as (Hfiles & _).
      apply (names_distinct (threads s1) tid' tid t' t); [by rewrite Hfiles|done..].
  - intros s1 tid t pc' _ IH Ht Hf tid' t' Ht'. simpl in Ht'.
    destruct (lookup_set_thread _ _ _ _ _ _ Ht Ht') as [[-> ->]|[Hne Hold]]; simpl.
    + unfold fault in Hf. unfold transfer_ok. simpl.
      by repeat (case_match; simplify_eq/=).
    + exact (IH _ _ Hold).
  - intros s1 IH _. exact IH.
  - intros s1 m IH _ _. exact IH.
Qed.

(** X13. In a batch whose files have distinct local names, and with a
    server whose reads return an empty chunk only at the end of a body,
    every thread that has completed its download leaves its file, in
    every state reached afterwards, closed and holding exactly the body
    of the response it resolved, whose status was outside 400..599:
    no other thread, and no later cancellation, touches the file. *)
Theorem completed_files_hold_the_served_body hexdigest net data threads_num disk
    s tid t raised :
  NoDup (local_name <$> data) ->
  (forall url, Forall (fun chunk => chunk <> []) (body (net url))) ->
  reachable hexdigest net (batch_start data threads_num disk) s ->
  threads s !! tid = Some t ->
  pc t = Exited Completed raised ->
  exists response,
    resolved net (file t) = Some response
    /\ is_error_status (http_status response) = false
    /\ fs (world s) !! local_name (file t)
       = Some {| content := concat (body response); status := Whole |}.
Proof.
  intros Hnd Hbody Hr Ht Hpc.
  pose proof (transfer_ok_reachable _ _ _ _ _ _ Hnd Hbody Hr _ _ Ht) as Hok.
  unfold transfer_ok in Hok. by rewrite Hpc in Hok.
Qed.

Lemma completed_files_hold_the_served_body_witness :
  let s := exec demo_digest demo_net (runs 0 19 ++ [KeyboardInterrupt] ++ runs 1 4)%list
             (batch_start [file_a; file_b] 2 ∅) in
  pc <$> threads s = [Exited Completed false; Exited Cancelled false]
  /\ exists response,
       resolved demo_net file_a = Some response
       /\ is_error_status (http_status response) = false
       /\ fs (world s) !! local_name file_a
          = Some {| content := concat (body response); status := Whole |}.
Proof.
  intros s. split; [vm_compute; reflexivity|].
  apply (completed_files_hold_the_served_body demo_digest demo_net
           [file_a; file_b] 2 ∅ s 0 {| file := file_a; pc := Exited Completed false |}
           false).
  - apply (bool_decide_unpack _). vm_compute. exact I.
  - intros url. unfold demo_net. repeat case_match; repeat constructor; done.
  - apply exec_reachable.
  - vm_compute. reflexivity.
  - reflexivity.
Defined.
(** ** The walk of get_folders *)

Lemma RemoteFolder_ind_nested (P : RemoteFolder -> Prop) :
  (forall folder_key name listing subfolders,
      Forall P subfolders -> P (Folder folder_key name listing subfolders)) ->
  forall folder, P folder.
Proof.
  intros H. fix IH 1. intros [folder_key name listing subfolders].
  apply H. induction subfolders as [|sub subfolders IHs]; constructor.
  - apply IH.
  - exact IHs.
Qed.

Lemma resolve_parent dir : resolve dir ".." = removelast dir.
Proof. reflexivity. Qed.

Lemma resolve_simple dir name :
  simple_name name = true -> resolve dir name = (dir ++ [name])%list.
Proof.
  unfold simple_name. rewrite !andb_true_iff, negb_true_iff.
  rewrite !bool_decide_eq_true. intros [[[[Hslash Hne] Hdot] Hdots] _].
  unfold resolve, components. rewrite components_from_no_slash by done.
  change ("" +:+ name) with name. simpl.
  assert (is_absolute name = false) as ->.
  { destruct name as [|c name]; [done|]. simpl. rewrite char_in_cons in Hslash.
    rewrite Ascii.eqb_sym. by destruct (Ascii.eqb "/"%char c). }
  rewrite decide_False by done. rewrite decide_False; [done|]. by intros [?|?].
Qed.

Lemma prefixes_snoc (l : list string) x :
  prefixes (l ++ [x]) = (prefixes l ++ [l ++ [x]])%list.
Proof.
  induction l as [|c l IH]; [done|]. simpl. rewrite IH.
  by rewrite fmap_app.
Qed.

Lemma prefixes_self (l : list string) : l <> [] -> l ∈ prefixes l.
Proof.
  induction l as [|c l IH]; [done|]. intros _. simpl.
  destruct l as [|c' l]; [by left|]. right.
  apply (list_elem_of_fmap_2 (fun p => c :: p)). by apply IH.
Qed.

Lemma is_dir_mono d sh sh' :
  (forall p, p ∈ dirs sh -> p ∈ dirs sh') -> is_dir d sh = true -> is_dir d sh' = true.
Proof.
  unfold is_dir. rewrite !bool_decide_eq_true. intros H [->|Hd]; [by left|].
  right. by apply H.
Qed.

(** [ensure_dir] and [chdir] on a path that no regular file is in the
    way of. *)
Lemma enter_dir folder_name sh (possible : list (list string)) :
  folder_name <> "" ->
  forallb name_fits (components folder_name) = true ->
  let root := resolve (cwd sh) folder_name in
  (forall p, p ∈ file_paths sh -> p ∈ possible) ->
  (forall d, d ∈ prefixes root -> d ∉ possible) ->
  exists sh1,
    ensure_dir folder_name sh ≫= chdir folder_name = Some sh1
    /\ cwd sh1 = root
    /\ batches sh1 = batches sh
    /\ file_paths sh1 = file_paths sh
    /\ is_dir root sh1 = true
    /\ (forall d, is_dir d sh = true -> is_dir d sh1 = true).
Proof.
  intros Hname Hfits root Hfiles Hway. unfold ensure_dir.
  rewrite decide_False by done. rewrite Hfits. cbn [negb].
  fold root. unfold path_exists.
  destruct (is_dir root sh) eqn:Hdir; simpl.
  { unfold chdir. fold root. rewrite Hdir. eexists. split; [reflexivity|]. done. }
  assert (root <> [] /\ root ∉ dirs sh) as [Hnil Hnew].
  { unfold is_dir in Hdir. apply bool_decide_eq_false in Hdir. tauto. }
  rewrite bool_decide_eq_false_2.
  2:{ intros Hin. apply (Hway root); [by apply prefixes_self|by apply Hfiles]. }
  unfold makedirs. rewrite bool_decide_eq_false_2.
  2:{ rewrite Exists_exists. intros (p & Hp & Hin). apply (Hway p Hp). by apply Hfiles. }
  simpl. unfold chdir. simpl. fold root.
  assert (is_dir root
            {| cwd := cwd sh;
               dirs := dirs sh ++ filter (fun p => p ∉ dirs sh) (prefixes root);
               file_paths := file_paths sh; made := made sh ++ [root];
               batches := batches sh |} = true) as Hdir'.
  { unfold is_dir. simpl. apply bool_decide_eq_true. right.
    apply elem_of_app. right. apply list_elem_of_filter. split; [done|].
    by apply prefixes_self. }
  rewrite Hdir'. eexists. split; [reflexivity|]. simpl.
  split; [done|]. split; [done|]. split; [done|]. split.
  - unfold is_dir in *. simpl in *. done.
  - intros d. apply is_dir_mono. simpl. intros p Hp. apply elem_of_app. by left.
Qed.

Lemma record_batch_spec outcome folder_key listing sh (possible : list (list string)) :
  is_Some (outcome folder_key) ->
  (forall p, p ∈ file_paths sh -> p ∈ possible) ->
  (forall p, p ∈ resolve (cwd sh) <$> listed listing -> p ∈ possible) ->
  exists sh2,
    record_batch outcome folder_key listing sh = Some sh2
    /\ cwd sh2 = cwd sh
    /\ dirs sh2 = dirs sh
    /\ batches sh2 = (batches sh ++ [(cwd sh, folder_key)])%list
    /\ (forall p, p ∈ file_paths sh2 -> p ∈ possible).
Proof.
  intros [leaves Hleaves] Hfiles Hlisted. unfold record_batch. rewrite Hleaves. simpl.
  eexists. split; [reflexivity|]. simpl. repeat split.
  intros p Hp. apply elem_of_app in Hp as [Hp|Hp].
  - apply list_elem_of_filter in Hp as [_ Hp]. by apply Hfiles.
  - apply list_elem_of_filter in Hp as [_ Hp]. apply Hlisted.
    apply list_elem_of_fmap in Hp as (n & -> & Hn).
    apply list_elem_of_filter in Hn as [_ Hn].
    by apply list_elem_of_fmap_2.
Qed.

Lemma walk_subfolders outcome subfolders sh (possible : list (list string)) :
  Forall (walk_spec outcome) subfolders ->
  forallb (fun sub => simple_name (remote_name sub) && simple_subfolders sub)
          subfolders = true ->
  let below := flat_map (fun sub =>
                           tree_batches (cwd sh ++ [remote_name sub])%list sub)
                        subfolders in
  is_dir (cwd sh) sh = true ->
  Forall (fun b => is_Some (outcome b.2)) below ->
  (forall p, p ∈ file_paths sh -> p ∈ possible) ->
  (forall p,
      p ∈ flat_map (fun sub => tree_files (cwd sh ++ [remote_name sub])%list sub)
            subfolders -> p ∈ possible) ->
  (forall d, d ∈ prefixes (cwd sh) -> d ∉ possible) ->
  (forall b, b ∈ below -> b.1 ∉ possible) ->
  exists sh',
    foldl (fun walked sub =>
             sh ← walked;
             sh ← get_folders outcome sub (remote_name sub) false sh;
             chdir ".." sh)
          (Some sh) subfolders = Some sh'
    /\ cwd sh' = cwd sh
    /\ batches sh' = (batches sh ++ below)%list
    /\ (forall d, is_dir d sh = true -> is_dir d sh' = true)
    /\ Forall (fun b => is_dir b.1 sh' = true) below
    /\ (forall p, p ∈ file_paths sh' -> p ∈ possible).
Proof.
  intros Hall. revert sh.
  induction Hall as [|sub subfolders Hsub _ IH];
    intros sh Hsimple below Hcwd Hout Hfiles Htree Hway Hbelow.
  - exists sh. simpl. rewrite app_nil_r. repeat split; done.
  - simpl in Hsimple. apply andb_true_iff in Hsimple as [Hs Hrest].
    apply andb_true_iff in Hs as [Hname Htreeok].
    subst below. simpl in *.
    apply Forall_app in Hout as [Hout1 Hout2].
    pose proof (resolve_simple (cwd sh) _ Hname) as Hres.
    assert (remote_name sub <> ""
            /\ forallb name_fits (components (remote_name sub)) = true)
      as [Hne Hfits].
    { unfold simple_name in Hname. rewrite !andb_true_iff in Hname.
      destruct Hname as [[[[Hslash Hne] _] _] Hfits].
      split; [by apply bool_decide_eq_true in Hne|].
      unfold components. rewrite components_from_no_slash
        by (by apply negb_true_iff in Hslash).
      change ("" +:+ remote_name sub) with (remote_name sub).
      simpl. by rewrite Hfits. }
    destruct (Hsub (remote_name sub) sh possible Hne Hfits Htreeok)
      as (sh1 & Hrun & Hcwd1 & Hb1 & Hd1 & Hin1 & Hf1).
    { by rewrite Hres. }
    { done. }
    { rewrite Hres. intros p Hp. apply Htree. apply elem_of_app. by left. }
    { rewrite Hres, prefixes_snoc. intros d Hd.
      apply elem_of_app in Hd as [Hd|Hd]; [by apply Hway|].
      apply list_elem_of_singleton in Hd as ->.
      apply (Hbelow (cwd sh ++ [remote_name sub], match sub with Folder k _ _ _ => k end)%list).
      apply elem_of_app. left. destruct sub. by left. }
    { rewrite Hres. intros b Hb. apply Hbelow. apply elem_of_app. by left. }
    rewrite Hres in Hcwd1, Hb1, Hin1.
    assert (exists sh2, chdir ".." sh1 = Some sh2
              /\ cwd sh2 = cwd sh /\ dirs sh2 = dirs sh1
              /\ file_paths sh2 = file_paths sh1 /\ batches sh2 = batches sh1)
      as (sh2 & Hup & Hcwd2 & Hd2 & Hf2 & Hb2).
    { unfold chdir. rewrite resolve_parent, Hcwd1, removelast_last.
      rewrite (Hd1 _ Hcwd). eexists. split; [reflexivity|]. done. }
    assert (forall d, is_dir d sh1 = true -> is_dir d sh2 = true) as Hmono2.
    { intros d. apply is_dir_mono. by rewrite Hd2. }
    destruct (IH sh2) as (sh' & Hfold & Hcwd' & Hb' & Hd' & Hin' & Hf').
    { done. }
    { rewrite Hcwd2. by apply Hmono2, Hd1. }
    { by rewrite Hcwd2. }
    { by rewrite Hf2. }
    { rewrite Hcwd2. intros p Hp. apply Htree. apply elem_of_app. by right. }
    { by rewrite Hcwd2. }
    { rewrite Hcwd2. intros b Hb. apply Hbelow. apply elem_of_app. by right. }
    rewrite Hcwd2 in Hb', Hin'.
    exists sh'. rewrite Hrun. simpl. rewrite Hup. split; [exact Hfold|].
    split; [congruence|]. split; [|split; [|split]].
    + rewrite Hb', Hb2, Hb1. by rewrite app_assoc.
    + intros d Hd. by apply Hd', Hmono2, Hd1.
    + apply Forall_app. split; [|done].
      eapply Forall_impl; [exact Hin1|]. intros b Hb. by apply Hd', Hmono2.
    + done.
Qed.

Lemma get_folders_walk outcome folder : walk_spec outcome folder.
Proof.
  induction folder as [folder_key name listing subfolders IH]
    using RemoteFolder_ind_nested.
  intros folder_name sh possible Hname Hfits Hsimple root Hout Hfiles Htree Hway
    Hdirs.
  simpl in Hsimple, Hout, Htree, Hdirs. cbn [get_folders].
  destruct (enter_dir folder_name sh possible Hname Hfits Hfiles Hway)
    as (sh1 & Henter & Hcwd1 & Hb1 & Hf1 & Hdir1 & Hmono1).
  fold root in Hcwd1, Hdir1.
  destruct (ensure_dir folder_name sh) as [sh0|]; [|done]. simpl in Henter.
  cbn [mbind option_bind]. rewrite Henter. cbn [mbind option_bind].
  apply Forall_cons in Hout as [Hkey Hout].
  destruct (record_batch_spec outcome folder_key listing sh1 possible Hkey)
    as (sh2 & Hbatch & Hcwd2 & Hd2 & Hb2 & Hf2).
  { by rewrite Hf1. }
  { rewrite Hcwd1. intros p Hp. apply Htree. apply elem_of_app. by left. }
  rewrite Hbatch. cbn [mbind option_bind].
  assert (forall d, is_dir d sh1 = true -> is_dir d sh2 = true) as Hmono2.
  { intros d. apply is_dir_mono. by rewrite Hd2. }
  destruct (walk_subfolders outcome subfolders sh2 possible IH Hsimple)
    as (sh' & Hfold & Hcwd' & Hb' & Hd' & Hin' & Hf').
  { rewrite Hcwd2, Hcwd1. by apply Hmono2. }
  { by rewrite Hcwd2, Hcwd1. }
  { done. }
  { rewrite Hcwd2, Hcwd1. intros p Hp. apply Htree. apply elem_of_app. by right. }
  { by rewrite Hcwd2, Hcwd1. }
  { rewrite Hcwd2, Hcwd1. intros b Hb. apply Hdirs. by right. }
  rewrite Hcwd2, Hcwd1 in Hcwd', Hb', Hin'.
  exists sh'. split; [exact Hfold|]. split; [done|]. split; [|split; [|split]].
  - rewrite Hb', Hb2, Hb1, Hcwd1. by rewrite <- app_assoc.
  - intros d Hd. by apply Hd', Hmono2, Hmono1.
  - constructor; [|done]. simpl. by apply Hd', Hmono2.
  - done.
Qed.

(** X14. [get_folders] on a remote tree whose subfolders have names
    that are one path component each (no "/", not empty, not "." or
    "..") and that the file system takes, every batch of which
    returns, to a destination without ".." whose components the file
    system takes, and with no regular file in the way: none on the way to the destination and none at the place
    of a folder of the tree, neither in the directory before the call
    nor among the files the batches download. Then the call returns,
    [download_folder] has been called once for every folder of the
    tree, in depth-first order, each time in the directory that
    mirrors the folder's place in the tree, that directory exists, and
    the working directory is the root of the mirrored tree. *)
Theorem get_folders_mirrors_the_remote_tree outcome folder folder_name
    (first : bool) sh :
  let destination :=
    if first
    then path_join folder_name (normalize_file_or_folder_name (remote_name folder))
    else folder_name in
  let root := resolve (cwd sh) destination in
  destination <> "" ->
  (".." ∉ components destination) ->
  forallb name_fits (components destination) = true ->
  simple_subfolders folder = true ->
  Forall (fun b => is_Some (outcome b.2)) (tree_batches root folder) ->
  Forall (fun d => (d ∉ file_paths sh) /\ (d ∉ tree_files root folder))
         (prefixes root ++ (fst <$> tree_batches root folder)) ->
  exists sh',
    get_folders outcome folder folder_name first sh = Some sh'
    /\ cwd sh' = root
    /\ batches sh' = (batches sh ++ tree_batches root folder)%list
    /\ Forall (fun b => is_dir b.1 sh' = true) (tree_batches root folder).
Proof.
  intros destination root Hname _ Hfits Hsimple Hout Hclear.
  assert (get_folders outcome folder folder_name first sh
          = get_folders outcome folder destination false sh) as ->.
  { unfold destination. by destruct folder, first. }
  rewrite Forall_forall in Hclear.
  destruct (get_folders_walk outcome folder destination sh
              (file_paths sh ++ tree_files root folder)%list Hname Hfits Hsimple)
    as (sh' & Hrun & Hcwd & Hb & _ & Hin & _).
  - done.
  - intros p Hp. apply elem_of_app. by left.
  - intros p Hp. apply elem_of_app. by right.
  - intros d Hd Hin. destruct (Hclear d) as [H1 H2].
    { apply elem_of_app. by left. }
    apply elem_of_app in Hin as [?|?]; done.
  - intros b Hb Hin. destruct (Hclear b.1) as [H1 H2].
    { apply elem_of_app. right. by apply list_elem_of_fmap_2. }
    apply elem_of_app in Hin as [?|?]; done.
  - by exists sh'.
Qed.

Lemma get_folders_mirrors_the_remote_tree_witness :
  let tree :=
    Folder "k0" "Holiday: 2024"
      [{| files := [file_a; file_b]; more_chunks := "no" |}]
      [Folder "k1" "day: one" [{| files := [file_c]; more_chunks := "no" |}] [];
       Folder "k2" "misc" [] []] in
  let sh := {| cwd := ["home"]; dirs := [["home"]];
               file_paths := [["home"; "notes.txt"]]; made := [];
               batches := [] |} in
  exists sh',
    get_folders demo_outcome tree "out" true sh = Some sh'
    /\ cwd sh' = ["home"; "out"; "Holiday- 2024"]
    /\ batches sh'
       = [(["home"; "out"; "Holiday- 2024"], "k0");
          (["home"; "out"; "Holiday- 2024"; "day: one"], "k1");
          (["home"; "out"; "Holiday- 2024"; "misc"], "k2")]
    /\ Forall (fun b => is_dir b.1 sh' = true)
         (tree_batches ["home"; "out"; "Holiday- 2024"] tree).
Proof.
  intros tree sh.
  apply (get_folders_mirrors_the_remote_tree demo_outcome tree "out" true sh).
  - vm_compute. discriminate.
  - apply (bool_decide_unpack _). vm_compute. exact I.
  - vm_compute. reflexivity.
  - vm_compute. reflexivity.
  - apply (bool_decide_unpack _). vm_compute. exact I.
  - apply (bool_decide_unpack _). vm_compute. exact I.
Defined.

(** ** Deadlock freedom *)

Lemma holds_permit_nonneg pc : 0 <= holds_permit pc.
Proof. destruct pc; simpl; repeat case_match; lia. Qed.

Lemma is_crashed_nonneg t : 0 <= is_crashed t.
Proof. unfold is_crashed. repeat case_match; lia. Qed.

Lemma sum_threads_lookup_le g (l : list Thread) tid t :
  (forall t, 0 <= g t) -> l !! tid = Some t -> g t <= sum_threads g l.
Proof.
  intros Hg. revert tid. induction l as [|t0 l IH]; intros tid Ht; [done|].
  destruct tid as [|tid]; simplify_eq/=.
  - pose proof (sum_threads_nonneg g l Hg). lia.
  - specialize (IH _ Ht). specialize (Hg t0). lia.
Qed.

Lemma step_permits hexdigest net tid f w pc w' pc' sem :
  step hexdigest net tid f w pc = Some (w', pc') ->
  limiter w = Some sem -> 0 <= value sem <= initial_value sem ->
  exists sem', limiter w' = Some sem'
    /\ initial_value sem' = initial_value sem
    /\ 0 <= value sem' <= initial_value sem'
    /\ (value sem + holds_permit pc + is_crashed {| file := f; pc := pc |}
        <= value sem' + holds_permit pc' + is_crashed {| file := f; pc := pc' |}
        \/ value sem' = initial_value sem').
Proof.
  intros H Hl Hv. unfold is_crashed.
  destruct pc; step_inv H; eexists; (split; [done|]); simpl;
    repeat case_match; simplify_eq/=; lia.
Qed.

Lemma permits_reachable hexdigest net data threads_num disk s :
  0 <= threads_num ->
  reachable hexdigest net (batch_start data threads_num disk) s ->
  permits_held s.
Proof.
  intros Hk Hr. eapply batch_invariant; [exact Hr|..].
  - eexists. split; [reflexivity|]. simpl. split; [lia|].
    unfold crashed_tasks. simpl. rewrite !sum_threads_start by done. lia.
  - intros s1 tid t w' pc' Hr1 (sem & Hl & Hv & Hle) Ht Hs.
    destruct (step_permits _ _ _ _ _ _ _ _ _ Hs Hl Hv)
      as (sem' & Hl' & Hi & Hv' & Hstep).
    exists sem'. split; [done|]. split; [done|].
    unfold crashed_tasks in *. simpl.
    rewrite !(sum_threads_insert _ _ _ _ _ Ht). simpl.
    pose proof (holds_permit_nonneg pc').
    pose proof (is_crashed_nonneg {| file := file t; pc := pc' |}).
    pose proof (sum_threads_lookup_le (fun t => holds_permit (pc t)) _ _ _
                  (fun t => holds_permit_nonneg (pc t)) Ht).
    pose proof (sum_threads_lookup_le is_crashed _ _ _ is_crashed_nonneg Ht).
    assert (is_crashed {| file := file t; pc := pc t |} = is_crashed t)
      by (by destruct t).
    simpl in *. destruct Hstep as [Hstep|Hfull]; lia.
  - intros s1 tid t pc' _ (sem & Hl & Hv & Hle) Ht Hf.
    exists sem. split; [done|]. split; [done|].
    unfold crashed_tasks in *. simpl.
    rewrite !(sum_threads_insert _ _ _ _ _ Ht). simpl.
    assert (holds_permit (pc t) + is_crashed t
            <= holds_permit pc' + is_crashed {| file := file t; pc := pc' |});
      [|lia].
    unfold fault in Hf. unfold is_crashed. destruct (pc t); simplify_eq/=; lia.
  - intros s1 IH _. exact IH.
  - intros s1 m IH _ _. exact IH.
Qed.

Lemma forallb_false_lookup (g : Thread -> bool) l :
  forallb g l = false -> exists tid t, l !! tid = Some t /\ g t = false.
Proof.
  induction l as [|t l IH]; [done|]. simpl. intros H.
  apply andb_false_iff in H as [H|H].
  - by exists 0%nat, t.
  - destruct (IH H) as (tid & t' & Ht & Hg). by exists (S tid), t'.
Qed.

Lemma idle_holds_nothing l :
  forallb idle l = true -> sum_threads (fun t => holds_permit (pc t)) l = 0.
Proof.
  intros H. apply sum_threads_zero. apply Forall_forall. intros t Hin.
  rewrite forallb_forall in H. specialize (H t).
  assert (idle t = true) as Hidle.
  { apply H. by apply list_elem_of_In. }
  unfold idle in Hidle. by destruct (pc t).
Qed.

(** As long as fewer threads have died with their permit than there
    are permits, something can happen. *)
Lemma permits_progress hexdigest net s :
  permits_held s ->
  (forall sem, limiter (world s) = Some sem -> crashed_tasks s < initial_value sem) ->
  wait_returned (main s) = false ->
  exists a s',
    (a = Wait \/ exists tid, a = Run tid)
    /\ sys_step hexdigest net a s = Some s'.
Proof.
  intros (sem & Hl & Hv & Hle) Hcr Hm. specialize (Hcr _ Hl).
  destruct (forallb exited (threads s)) eqn:Hex.
  { destruct (main s) eqn:Hmain; try done.
    - eexists Wait, _. split; [by left|]. simpl. by rewrite Hex, Hmain.
    - eexists Wait, _. split; [by left|]. simpl. by rewrite Hex, Hmain. }
  destruct (forallb idle (threads s)) eqn:Hidle.
  - destruct (forallb_false_lookup _ _ Hex) as (tid & t & Ht & Hne).
    rewrite (idle_holds_nothing _ Hidle) in Hle.
    assert (pc t = Acquire) as Hpc.
    { rewrite forallb_forall in Hidle. specialize (Hidle t).
      assert (idle t = true) as Hi'.
      { apply Hidle. apply list_elem_of_In. by eapply list_elem_of_lookup_2. }
      unfold idle in Hi'. unfold exited in Hne. by destruct (pc t). }
    eexists (Run tid), _. split; [by eauto|]. simpl. rewrite Ht. simpl.
    rewrite Hpc. simpl. rewrite Hl. unfold semaphore_acquire.
    rewrite decide_False by lia. done.
  - destruct (forallb_false_lookup _ _ Hidle) as (tid & t & Ht & Hbusy).
    destruct (step hexdigest net tid (file t) (world s) (pc t)) as [[w' pc']|] eqn:Hs.
    + eexists (Run tid), _. split; [by eauto|]. simpl. rewrite Ht. simpl.
      by rewrite Hs.
    + apply step_none in Hs as [(o & raised & Hpc)|[Hpc _]];
        unfold idle in Hbusy; by rewrite Hpc in Hbusy.
Qed.

(** X15. A batch comes to a standstill only through threads that died
    before their [try] block, which keep their permit for ever: in
    every state a batch reaches in which fewer threads have died so
    than there are permits, either the wait of the main thread has
    returned, or some thread can execute its next statement, or every
    thread is over and the wait returns. With one permit and a first
    file named ".", the thread of that file dies in [hash_file], the
    other thread stays blocked in [acquire], and neither a thread nor
    the wait of the main thread can ever go on. *)
Theorem batch_never_deadlocks :
  (forall hexdigest net data threads_num disk s,
      reachable hexdigest net (batch_start data threads_num disk) s ->
      crashed_tasks s < threads_num ->
      wait_returned (main s) = true
      \/ exists a s',
           (a = Wait \/ exists tid, a = Run tid)
           /\ sys_step hexdigest net a s = Some s')
  /\ (let s := exec demo_digest demo_net (runs 0 2)
                 (batch_start [file_dot; file_b] 1 ∅) in
      pc <$> threads s = [Exited Crashed true; Acquire]
      /\ limiter (world s) = Some {| value := 0; initial_value := 1 |}
      /\ main s = Polling
      /\ forall a, scheduled a = true -> sys_step demo_digest demo_net a s = None).
Proof.
  split.
  - intros hexdigest net data threads_num disk s Hr Hcr.
    destruct (wait_returned (main s)) eqn:Hm; [by left|right].
    assert (0 <= crashed_tasks s) as Hc0.
    { apply sum_threads_nonneg, is_crashed_nonneg. }
    destruct (shape_reachable hexdigest net data threads_num disk s Hr)
      as (_ & (sem & Hl & Hi) & _).
    apply permits_progress; [|by intros sem' ?; simplify_eq|done].
    apply (permits_reachable hexdigest net data threads_num disk); [lia|done].
  - split; [vm_compute; reflexivity|]. split; [vm_compute; reflexivity|].
    split; [vm_compute; reflexivity|].
    intros [[|[|tid]]|tid| |] Ha; try done; vm_compute; reflexivity.
Qed.

Lemma batch_never_deadlocks_witness :
  let s := exec demo_digest demo_net (runs 0 2)
             (batch_start [file_dot; file_b] 2 ∅) in
  crashed_tasks s = 1
  /\ (wait_returned (main s) = true
      \/ exists a s',
           (a = Wait \/ exists tid, a = Run tid)
           /\ sys_step demo_digest demo_net a s = Some s').
Proof.
  intros s. split; [vm_compute; reflexivity|].
  destruct batch_never_deadlocks as [Hprogress _].
  apply (Hprogress demo_digest demo_net [file_dot; file_b] 2 ∅ s).
  - apply exec_reachable.
  - vm_compute. reflexivity.
Defined.

(** ** A directory that already holds every file (C5) *)

Lemma skip_path_not_crashed l :
  Forall (fun t => skip_path (pc t) = true) l -> sum_threads is_crashed l = 0.
Proof.
  intros H. apply sum_threads_zero. eapply Forall_impl; [exact H|].
  intros t. unfold is_crashed.
  by destruct (pc t) as [| | | | | | | | | | | | | | | | | | | | | | |[]].
Qed.

Lemma skipped_results hexdigest net data threads_num disk s :
  reachable hexdigest net (batch_start data threads_num disk) s ->
  all_skipping disk s ->
  forallb exited (threads s) = true ->
  Forall (fun t => exists raised, pc t = Exited Skipped raised) (threads s)
  /\ exists p, progress (world s) = Some p
       /\ skipped_files p = Z.of_nat (length data)
       /\ completed_files p = 0
       /\ failed_files p = 0
       /\ downloaded_bytes p = declared_total data.
Proof.
  intros Hr (Hfs & Hsk & Hrq & p & Hp & Hd) Hex.
  destruct (ledger_reachable _ _ _ _ _ _ Hr) as (p' & Hp' & _ & _ & Hc & Hf & Hk).
  destruct (shape_reachable _ _ _ _ _ _ Hr) as (Hfiles & _).
  simplify_eq.
  assert (Forall (fun t => exists raised, pc t = Exited Skipped raised) (threads s))
    as Hall.
  { apply Forall_lookup_2. intros tid t Ht.
    destruct (forallb_exited_lookup _ _ _ Hex Ht) as (o & b & Hpc).
    pose proof (Forall_lookup_1 _ _ _ _ Hsk Ht) as Hs. simpl in Hs.
    rewrite Hpc in Hs. destruct o; try done. by exists b. }
  destruct (sum_all_skipped _ Hall) as (H1 & H2 & H3 & H4).
  split; [done|]. exists p.
  rewrite length_fmap. repeat split; congruence.
Qed.

Lemma skipping_finishes hexdigest net data threads_num disk n :
  1 <= threads_num ->
  (forall f, f ∈ data ->
     exists c, disk !! local_name f = Some c /\ hexdigest c = expected_hash f) ->
  forall schedule s,
    forallb no_fault schedule = true ->
    run hexdigest net schedule (batch_start data threads_num disk) = Some s ->
    (actions_left net s <= n)%nat ->
    exists rest s',
      forallb scheduled rest = true
      /\ run hexdigest net rest s = Some s'
      /\ wait_returned (main s') = true
      /\ (main s = Polling ->
          main s'
          = Finished (Some {| total_line := 0; failed_line := None;
                              skipped_line :=
                                if decide (Z.of_nat (length data) > 0)
                                then Some (Z.of_nat (length data)) else None |})).
Proof.
  intros Hk Hpresent.
  induction n as [|n IH]; intros schedule s Hall Hrun Hn.
  { destruct s as [w ts []]; unfold actions_left in Hn; simpl in Hn; try lia.
    - exists [], {| world := w; threads := ts; main := Finished summary |}. by eauto.
    - exists [], {| world := w; threads := ts; main := Interrupted |}. by eauto. }
  destruct (wait_returned (main s)) eqn:Hm.
  { exists [], s. split; [done|]. split; [done|]. split; [done|].
    intros Hp. by rewrite Hp in Hm. }
  pose proof (run_reachable _ _ _ _ _ Hrun) as Hr.
  pose proof (skipping_run _ _ _ _ _ _ _ Hpresent Hall Hrun) as Hskip.
  destruct (permits_progress hexdigest net s) as (a & s1 & Ha & Hstep).
  { apply (permits_reachable hexdigest net data threads_num disk); [lia|done]. }
  { intros sem Hl.
    destruct (shape_reachable _ _ _ _ _ _ Hr) as (_ & (sem' & Hl' & Hi) & _).
    simplify_eq. unfold crashed_tasks.
    destruct Hskip as (_ & Hsk & _). rewrite (skip_path_not_crashed _ Hsk). lia. }
  { done. }
  destruct Ha as [->|[tid ->]].
  - exists [Wait], s1. split; [done|]. split; [cbn [run]; by rewrite Hstep|].
    simpl in Hstep. destruct (forallb exited (threads s)) eqn:Hex; [|done].
    destruct (skipped_results _ _ _ _ _ _ Hr Hskip Hex)
      as (_ & p & Hp & Hs & Hc & Hf & _).
    destruct (main s) eqn:Hmain; simplify_eq/=; (split; [done|]); [|done].
    intros _. rewrite Hp. simpl. unfold finish. rewrite Hs, Hc, Hf.
    by rewrite (decide_False (P := 0 > 0)) by lia.
  - pose proof (sys_step_actions_left _ _ _ _ _ Hstep) as Hlt.
    destruct (IH (schedule ++ [Run tid])%list s1) as (rest & s' & Hsch & Hrest & Hw & Hfin).
    { rewrite forallb_app. by rewrite Hall. }
    { rewrite (run_app _ _ _ _ _ _ Hrun). cbn [run]. by rewrite Hstep. }
    { lia. }
    exists (Run tid :: rest), s'. split; [done|].
    split; [cbn [run]; by rewrite Hstep|]. split; [done|].
    intros Hp. apply Hfin. simpl in Hstep.
    destruct (threads s !! tid) as [t|]; simplify_eq/=.
    destruct (step hexdigest net tid (file t) (world s) (pc t)) as [[w' pc']|];
      by simplify_eq/=.
Qed.

(** C5, as amended. When every listed file is in the directory with
    the expected hash and can be read, a batch with at least one permit
    issues no request and leaves the directory as it was, at every
    moment; whatever it has done so far it can be brought to its end by
    the threads alone, and without Ctrl-C that end is [finish] reporting
    no completed file, no failed file and every file as skipped; once
    every task is over, every task has ended [Skipped],
    [skipped_files] is the number of files, the other two file counters
    are zero, and the declared size of every file has been added to
    [downloaded_bytes]. *)
Theorem present_files_are_all_skipped hexdigest net data threads_num disk
    schedule s :
  1 <= threads_num ->
  (forall f, f ∈ data ->
     exists c, disk !! local_name f = Some c /\ hexdigest c = expected_hash f) ->
  forallb no_fault schedule = true ->
  run hexdigest net schedule (batch_start data threads_num disk) = Some s ->
  requests (trace (world s)) = []
  /\ fs (world s) = (fun c => {| content := c; status := Whole |}) <$> disk
  /\ (forallb exited (threads s) = true ->
      Forall (fun t => exists raised, pc t = Exited Skipped raised) (threads s)
      /\ exists p, progress (world s) = Some p
           /\ skipped_files p = Z.of_nat (length data)
           /\ completed_files p = 0
           /\ failed_files p = 0
           /\ downloaded_bytes p = declared_total data)
  /\ exists rest s',
       forallb scheduled rest = true
       /\ run hexdigest net rest s = Some s'
       /\ wait_returned (main s') = true
       /\ (main s = Polling ->
           main s'
           = Finished (Some {| total_line := 0; failed_line := None;
                               skipped_line :=
                                 if decide (Z.of_nat (length data) > 0)
                                 then Some (Z.of_nat (length data)) else None |})).
Proof.
  intros Hk Hpresent Hall Hrun.
  pose proof (skipping_run _ _ _ _ _ _ _ Hpresent Hall Hrun) as Hskip.
  pose proof (run_reachable _ _ _ _ _ Hrun) as Hr.
  split; [by destruct Hskip as (_ & _ & Hrq & _)|].
  split; [by destruct Hskip as (Hfs & _)|].
  split; [by apply (skipped_results hexdigest net data threads_num disk)|].
  by apply (skipping_finishes hexdigest net data threads_num disk
              (actions_left net s) Hk Hpresent schedule s).
Qed.

(** A batch of two files that are in the directory, one permit, after
    the first thread has taken it. *)
Lemma present_files_are_all_skipped_witness :
  let data := [file_a; file_b] in
  let disk := <["b.bin" := (demo_chunk1 ++ demo_chunk2)%list]> disk_with_a in
  let s := exec demo_digest demo_net (runs 0 2) (batch_start data 1 disk) in
  pc <$> threads s = [SkipUpdate; Acquire]
  /\ requests (trace (world s)) = []
  /\ exists rest s',
       forallb scheduled rest = true
       /\ run demo_digest demo_net rest s = Some s'
       /\ main s' = Finished (Some {| total_line := 0; failed_line := None;
                                      skipped_line := Some 2 |}).
Proof.
  intros data disk s. split; [vm_compute; reflexivity|].
  destruct (present_files_are_all_skipped demo_digest demo_net data 1
              disk (runs 0 2) s)
    as (Hrq & _ & _ & rest & s' & Hsch & Hrest & _ & Hfin).
  - lia.
  - clear. intros f Hf.
    exists (demo_chunk1 ++ demo_chunk2)%list.
    apply elem_of_cons in Hf as [->|Hf]; [split; vm_compute; reflexivity|].
    apply elem_of_cons in Hf as [->|Hf]; [split; vm_compute; reflexivity|].
    by apply elem_of_nil in Hf.
  - reflexivity.
  - vm_compute. reflexivity.
  - split; [exact Hrq|]. exists rest, s'. split; [exact Hsch|].
    split; [exact Hrest|]. apply Hfin. clear. vm_compute. reflexivity.
Defined.

(** ** The link *)

Lemma key_run_chars s : all_key_chars (key_run s) = true.
Proof.
  induction s as [|c s IH]; [done|]. simpl.
  destruct (key_char c) eqn:Hc; [|done]. simpl. by rewrite Hc.
Qed.

Lemma match_alternatives_groups alternatives s t key :
  match_alternatives alternatives s = Some (t, key) ->
  t ∈ alternatives /\ key <> "" /\ all_key_chars key = true.
Proof.
  induction alternatives as [|alternative others IH]; [done|]. simpl.
  destruct (match_literal alternative s ≫= match_key) as [k|] eqn:Hk.
  - intros [= <- <-]. split; [by left|].
    destruct (match_literal alternative s) as [rest|]; [|done]. simpl in Hk.
    unfold match_key in Hk.
    destruct (match_literal "/" rest) as [rest'|]; [|done]. simpl in Hk.
    case_decide; simplify_eq. split; [done|apply key_run_chars].
  - intros H. destruct (IH H) as (Hin & Hne & Hall). split; [by right|done].
Qed.

Lemma first_match_groups s t key :
  first_match s = Some (t, key) ->
  t ∈ ["folder"; "file"; "file_premium"] /\ key <> "" /\ all_key_chars key = true.
Proof.
  induction s as [|c s IH]; simpl.
  - done.
  - destruct (match_here (String c s)) as [groups|] eqn:Hm; [|exact IH].
    intros [= ->]. unfold match_here in Hm.
    destruct (match_literal "mediafire.com/" (String c s)) as [rest|]; [|done].
    by eapply match_alternatives_groups.
Qed.

(** X16. Whatever the link, [main] never reaches its "Invalid link type"
    branch: the first group of the pattern is one of the three words the
    branches before it test for. A link that is dispatched comes with a
    key that is not empty and is made of ASCII letters and digits. *)
Theorem link_type_is_always_known mediafire_url :
  dispatch mediafire_url <> InvalidLinkType
  /\ forall key,
       dispatch mediafire_url = GetFile key
       \/ dispatch mediafire_url = GetFolders key ->
       key <> "" /\ all_key_chars key = true.
Proof.
  unfold dispatch.
  destruct (first_match mediafire_url) as [[t k]|] eqn:Hm.
  - destruct (first_match_groups _ _ _ Hm) as (Hin & Hne & Hall).
    rewrite !elem_of_cons, elem_of_nil in Hin.
    destruct Hin as [->|[->|[->|[]]]]; (split; [by vm_compute|]);
      intros key [H|H]; vm_compute in H; by simplify_eq.
  - split; [done|]. by intros key [|].
Qed.

Lemma string_empty_app s : "" +:+ s = s.
Proof. reflexivity. Qed.

Ltac string_norm :=
  repeat (rewrite string_app_cons || rewrite string_empty_app).

Ltac string_norm_in H :=
  repeat (rewrite string_app_cons in H || rewrite string_empty_app in H).

Lemma key_run_app key rest :
  all_key_chars key = true -> ends_key rest = true ->
  key_run (key +:+ rest) = key.
Proof.
  intros Hkey Hrest. induction key as [|c key IH].
  - change ("" +:+ rest) with rest. destruct rest as [|c rest]; [done|].
    simpl in *. by destruct (key_char c).
  - rewrite string_app_cons. simpl in *.
    apply andb_true_iff in Hkey as [-> Hkey]. by rewrite IH.
Qed.

Lemma match_key_app key rest :
  key <> "" -> all_key_chars key = true -> ends_key rest = true ->
  match_key ("/" +:+ key +:+ rest) = Some key.
Proof.
  intros Hne Hkey Hrest. unfold match_key.
  rewrite string_app_cons. change ("" +:+ ?x) with x. simpl.
  rewrite key_run_app by done. by rewrite decide_False.
Qed.

Lemma match_here_link t key rest :
  t ∈ ["folder"; "file"; "file_premium"] ->
  key <> "" -> all_key_chars key = true -> ends_key rest = true ->
  match_here ("mediafire.com/" +:+ t +:+ "/" +:+ key +:+ rest) = Some (t, key).
Proof.
  intros Hin Hne Hkey Hrest.
  pose proof (match_key_app key rest Hne Hkey Hrest) as Hk.
  rewrite !elem_of_cons, elem_of_nil in Hin.
  unfold match_here.
  string_norm_in Hk.
  destruct Hin as [->|[->|[->|[]]]]; string_norm; cbn -[match_key];
    by rewrite Hk.
Qed.

Lemma first_match_skip pre s :
  char_in "m"%char pre = false -> first_match (pre +:+ s) = first_match s.
Proof.
  induction pre as [|c pre IH]; [done|]. rewrite char_in_cons.
  destruct (Ascii.eqb "m"%char c) eqn:Hc; [done|]. intros Hpre.
  rewrite string_app_cons. cbn [first_match].
  assert (match_here (String c (pre +:+ s)) = None) as ->.
  { unfold match_here. cbn [match_literal]. by rewrite Hc. }
  by apply IH.
Qed.

(** X17. A link of the usual shape, the host after a prefix without the
    letter m (such as "https://www."), then one of the three words, "/"
    and a key of ASCII letters and digits, is dispatched by its word
    with that key, whatever follows the key. *)
Theorem link_is_dispatched_by_its_type pre t key rest :
  char_in "m"%char pre = false ->
  t ∈ ["folder"; "file"; "file_premium"] ->
  key <> "" -> all_key_chars key = true -> ends_key rest = true ->
  dispatch (pre +:+ "mediafire.com/" +:+ t +:+ "/" +:+ key +:+ rest)
  = if decide (t = "folder") then GetFolders key else GetFile key.
Proof.
  intros Hpre Hin Hne Hkey Hrest. unfold dispatch.
  rewrite first_match_skip by done.
  assert (first_match ("mediafire.com/" +:+ t +:+ "/" +:+ key +:+ rest)
          = Some (t, key)) as ->.
  { pose proof (match_here_link t key rest Hin Hne Hkey Hrest) as Hm.
    string_norm_in Hm. string_norm. cbn [first_match]. by rewrite Hm. }
  rewrite !elem_of_cons, elem_of_nil in Hin.
  by destruct Hin as [->|[->|[->|[]]]].
Qed.

Lemma link_is_dispatched_by_its_type_witness :
  dispatch "https://www.mediafire.com/file_premium/9abcQ7/photo.jpg/file"
  = GetFile "9abcQ7".
Proof.
  apply (link_is_dispatched_by_its_type "https://www." "file_premium" "9abcQ7"
           "/photo.jpg/file").
  - reflexivity.
  - apply (bool_decide_unpack _). vm_compute. exact I.
  - discriminate.
  - reflexivity.
  - reflexivity.
Defined.

(** ** interactive_mode *)

Lemma ask_url_spec strip inputs url rest :
  ask_url strip inputs = Some (url, rest) ->
  url <> "" /\ exists line, line ∈ inputs /\ url = strip line.
Proof.
  induction inputs as [|line inputs IH]; [done|]. simpl.
  case_decide as Hurl.
  - intros H. destruct (IH H) as (Hne & l & Hin & Hl).
    split; [done|]. exists l. split; [by right|done].
  - intros [= <- <-]. split; [done|]. exists line. split; [by left|done].
Qed.

Lemma ask_threads_spec strip int inputs threads rest :
  ask_threads strip int inputs = Some (threads, rest) -> 1 <= threads <= 50.
Proof.
  induction inputs as [|line inputs IH]; [done|]. simpl.
  case_decide; [intros [= <- <-]; lia|].
  destruct (int (strip line)) as [n|]; [|exact IH].
  case_decide; [exact IH|]. intros [= <- <-]. lia.
Qed.

(** X18. Whatever the user types, and whatever [strip] and [int] do, the
    answers [interactive_mode] returns are usable: the link is a
    stripped line that is not empty, the destination is not empty, and
    the number of threads is between 1 and 50. *)
Theorem interactive_mode_answers_are_valid strip int inputs url output threads rest :
  interactive_mode strip int inputs = Some (url, output, threads, rest) ->
  url <> "" /\ (exists line, line ∈ inputs /\ url = strip line)
  /\ output <> "" /\ 1 <= threads <= 50.
Proof.
  unfold interactive_mode. intros H.
  destruct (ask_url strip inputs) as [[url' inputs1]|] eqn:Hurl; [|done].
  simpl in H. destruct inputs1 as [|line inputs2]; [done|].
  destruct (ask_threads strip int inputs2) as [[threads' inputs3]|] eqn:Hthreads;
    [|done].
  simpl in H. injection H as <- <- <- <-.
  destruct (ask_url_spec _ _ _ _ Hurl) as [Hne Hline].
  split; [done|]. split; [done|]. split.
  - by case_decide.
  - by eapply ask_threads_spec.
Qed.

Lemma interactive_mode_answers_are_valid_witness :
  let int := fun s : string =>
               if decide (s = "99") then Some 99
               else if decide (s = "8") then Some 8 else None in
  let inputs := [""; "https://www.mediafire.com/folder/abc"; ""; "many"; "99"; "8"] in
  interactive_mode id int inputs
  = Some ("https://www.mediafire.com/folder/abc", ".", 8, [])
  /\ 1 <= 8 <= 50.
Proof.
  intros int inputs. split; [vm_compute; reflexivity|].
  apply (interactive_mode_answers_are_valid id int inputs
           "https://www.mediafire.com/folder/abc" "." 8 []).
  vm_compute. reflexivity.
Defined.
